(** * The conversation state manager of the customs chatbot front end

    A shallow embedding of [src/frontend/src/app/page.tsx]: the React state of
    the [NCSChatbot] component (the message list, the input field and the
    in-flight flag), the [handleSubmit] handler split at its single [await]
    point, and the transition system these induce together with the external
    answering service. A handler belongs to the render that created it: the
    page keeps, beside the pending state, the state the last render has
    seen. *)

From Stdlib Require Import ZArith NArith Ascii String.
From stdpp Require Import base option list relations.

Local Open Scope Z_scope.
Local Set Warnings "-register-all".

(** ** JavaScript strings *)

(** A JavaScript string is a sequence of UTF-16 code units. *)
Definition jsstring : Type := list N.

(** A literal of the source file; all of them are ASCII. *)
Definition lit (s : string) : jsstring :=
  N_of_ascii <$> list_ascii_of_string s.

(** The code units removed by [String.prototype.trim]: ECMAScript's WhiteSpace
    (TAB, VT, FF, ZWNBSP and the space separators) and LineTerminator
    (LF, CR, LS, PS). All of them lie in the basic plane, so that trimming is
    decided code unit by code unit. *)
Definition white_space_units : list N :=
  [0x0009; 0x000A; 0x000B; 0x000C; 0x000D; 0x0020; 0x00A0; 0x1680;
   0x2028; 0x2029; 0x202F; 0x205F; 0x3000; 0xFEFF]%N.

Definition is_white_space (c : N) : bool :=
  existsb (N.eqb c) white_space_units
  || ((0x2000 <=? c)%N && (c <=? 0x200A)%N).

Fixpoint trimStart (s : jsstring) : jsstring :=
  match s with
  | [] => []
  | c :: s' => if is_white_space c then trimStart s' else s
  end.

Definition trimEnd (s : jsstring) : jsstring :=
  reverse (trimStart (reverse s)).

Definition trim (s : jsstring) : jsstring := trimEnd (trimStart s).

Fixpoint jsstring_eqb (s t : jsstring) : bool :=
  match s, t with
  | [], [] => true
  | c :: s', d :: t' => (c =? d)%N && jsstring_eqb s' t'
  | _, _ => false
  end.

(** ** JavaScript values *)

(** The values [response.json()] can produce, and [undefined]. A number is
    kept as the bit pattern of its IEEE-754 binary64 representation; an object
    as its own properties in insertion order, with distinct keys. *)
Inductive value : Type :=
  | VUndefined
  | VNull
  | VBoolean (b : bool)
  | VNumber (bits : Z)
  | VString (s : jsstring)
  | VArray (elems : list value)
  | VObject (props : list (jsstring * value)).

(** A number is falsy when it is [+0], [-0] or a NaN. *)
Definition number_truthy (bits : Z) : bool :=
  let magnitude := Z.land bits 0x7FFFFFFFFFFFFFFF in
  negb (magnitude =? 0) && (magnitude <=? 0x7FF0000000000000).

(** The abstract operation ToBoolean, used by [!] and [||]. *)
Definition ToBoolean (v : value) : bool :=
  match v with
  | VUndefined | VNull => false
  | VBoolean b => b
  | VNumber bits => number_truthy bits
  | VString s => match s with [] => false | _ => true end
  | VArray _ | VObject _ => true
  end.

(** [a || b] *)
Definition js_or (a b : value) : value := if ToBoolean a then a else b.

Fixpoint own_property (props : list (jsstring * value)) (k : jsstring) : value :=
  match props with
  | [] => VUndefined
  | (k', v) :: rest => if jsstring_eqb k' k then v else own_property rest k
  end.

(** [v.k] on a value that is neither [null] nor [undefined], for a property
    name [k] that no built-in prototype defines (the handler reads [sources],
    [answer], [source_text_preview] and [metadata]): the own property of an
    object, [undefined] on everything else. *)
Definition member (v : value) (k : jsstring) : value :=
  match v with
  | VObject props => own_property props k
  | _ => VUndefined
  end.

(** ** Exceptions *)

Inductive exn : Type :=
  | NetworkError
  | HttpError (status : Z)
  | SyntaxError
  | TypeError.

Inductive completion (A : Type) : Type :=
  | Normal (a : A)
  | Throw (e : exn).
Arguments Normal {A} a.
Arguments Throw {A} e.

Global Instance completion_ret : MRet completion := @Normal.
Global Instance completion_bind : MBind completion := λ A B f c,
  match c with
  | Normal a => f a
  | Throw e => Throw e
  end.

(** [v.k], which throws a TypeError on [null] and [undefined]. *)
Definition get (v : value) (k : jsstring) : completion value :=
  match v with
  | VUndefined | VNull => Throw TypeError
  | _ => Normal (member v k)
  end.

(** [v.map(f)]: only an array has a callable [map]; a value parsed from JSON
    holds no function, so that calling [map] on anything else is a TypeError. *)
Definition js_map {B : Type} (v : value) (f : value → completion B)
  : completion (list B) :=
  match v with
  | VArray elems => mapM f elems
  | _ => Throw TypeError
  end.

(** ** The data model of the component *)

Module Source.
Record t : Type := mk { text : value; metadata : value }.
End Source.

Inductive Role : Type := user | assistant.

(** The optional fields of the TypeScript interface are [None] when the
    property is absent from the object. *)
Module Message.
Record t : Type := mk {
  role : Role;
  content : value;
  sources : option (list Source.t);
  isLoading : option bool;
  error : option bool
}.
End Message.

(** The three [useState] cells of [NCSChatbot]. *)
Record state : Type := mkState {
  messages : list Message.t;
  input : jsstring;
  isLoading : bool
}.

Definition setMessages (f : list Message.t → list Message.t) (st : state) : state :=
  {| messages := f (messages st); input := input st; isLoading := isLoading st |}.

Definition setInput (s : jsstring) (st : state) : state :=
  {| messages := messages st; input := s; isLoading := isLoading st |}.

Definition setIsLoading (b : bool) (st : state) : state :=
  {| messages := messages st; input := input st; isLoading := b |}.

Definition welcome_text : jsstring :=
  lit "Welcome, Officer. I am your instant knowledge assistant. Ask me about tariffs, prohibited items, or the NCS Act.".

Definition fallback_text : jsstring :=
  lit "I apologize, but I could not generate a response.".

Definition connectivity_error_text : jsstring :=
  lit "I apologize, but I encountered an error connecting to the knowledge base. Please ensure the backend service is running and try again.".

Definition welcome_message : Message.t :=
  Message.mk assistant (VString welcome_text) None None None.

Definition initial_state : state :=
  {| messages := [welcome_message]; input := []; isLoading := false |}.

(** ** The request sent to the answering service *)

(** The argument of [fetch]: the body is the object handed to
    [JSON.stringify]. *)
Record Request : Type := mkRequest {
  url : jsstring;
  method : jsstring;
  content_type : jsstring;
  body : value
}.

Definition chat_request (userMessage : jsstring) : Request :=
  {| url := lit "http://localhost:8000/chat";
     method := lit "POST";
     content_type := lit "application/json";
     body := VObject [(lit "query", VString userMessage)] |}.

(** What the service sent back: the status line, and what [response.json()]
    settles to ([None] when it rejects, as it does on a body that is not JSON
    text). *)
Record Response : Type := mkResponse {
  status : Z;
  json : option value
}.

(** [response.ok] *)
Definition ok (r : Response) : bool :=
  (200 <=? status r) && (status r <=? 299).

(** How the promise returned by [fetch] settles. *)
Inductive settled : Type :=
  | Rejected
  | Fulfilled (r : Response).

(** ** [handleSubmit] *)

Definition user_message (userMessage : jsstring) : Message.t :=
  Message.mk user (VString userMessage) None None None.

Definition loading_message : Message.t :=
  Message.mk assistant (VString []) None (Some true) None.

(** The handler up to its [await]: the state it leaves, and the request it
    has issued, if any. [input] and [isLoading] are constants of the render
    in which the handler was created, [render] here; the setters act on the
    pending state [st], and the two updaters of [messages] on whatever the
    list is by then. *)
Definition handleSubmit_in (render st : state) : state * option Request :=
  if negb (ToBoolean (VString (trim (input render)))) || isLoading render then (st, None)
  else
    let userMessage := trim (input render) in
    let st := setInput [] st in
    let st := setMessages (λ prev, prev ++ [user_message userMessage]) st in
    let st := setMessages (λ prev, prev ++ [loading_message]) st in
    let st := setIsLoading true st in
    (st, Some (chat_request userMessage)).

(** The handler of the render of [st], called while [st] is still the
    pending state. *)
Definition handleSubmit (st : state) : state * option Request :=
  handleSubmit_in st st.

Definition await_fetch (o : settled) : completion Response :=
  match o with
  | Rejected => Throw NetworkError
  | Fulfilled r => Normal r
  end.

Definition await_json (r : Response) : completion value :=
  match json r with
  | Some data => Normal data
  | None => Throw SyntaxError
  end.

Definition transform_source (s : value) : completion Source.t :=
  text ← get s (lit "source_text_preview");
  metadata ← get s (lit "metadata");
  mret (Source.mk text metadata).

(** [(data.sources || []).map(...)] *)
Definition transformedSources (data : value) : completion (list Source.t) :=
  sources ← get data (lit "sources");
  js_map (js_or sources (VArray [])) transform_source.

(** The body of the [try] block after the request was sent. *)
Definition try_block (o : settled) : completion (value * list Source.t) :=
  response ← await_fetch o;
  if negb (ok response) then Throw (HttpError (status response))
  else
    data ← await_json response;
    sources ← transformedSources data;
    mret (data, sources).

(** [prev.slice(0, -1)] *)
Definition slice_0_m1 {A : Type} (prev : list A) : list A :=
  take (length prev - 1)%nat prev.

(** The message of the success branch. [data.answer] is read inside the state
    updater, after [data.sources] has been read without a TypeError, so that
    [data] is neither [null] nor [undefined] there and the read is [member]
    (lemma [transformedSources_get]). *)
Definition answer_message (data : value) (sources : list Source.t) : Message.t :=
  Message.mk assistant
    (js_or (member data (lit "answer")) (VString fallback_text))
    (Some sources) None None.

Definition error_message : Message.t :=
  Message.mk assistant (VString connectivity_error_text) None None (Some true).

(** The handler from its [await] on, once the promise of [fetch] has settled:
    the [try] block, the [catch] clause and the [finally] clause. The updates
    of [messages] and of [isLoading] are made in one turn of the event loop
    and React applies them in one batch, so that the continuation is one
    transition of the state. *)
Definition handleSubmit_settled (o : settled) (st : state) : state :=
  let st :=
    match try_block o with
    | Normal (data, sources) =>
        setMessages (λ prev, slice_0_m1 prev ++ [answer_message data sources]) st
    | Throw _ =>
        setMessages (λ prev, slice_0_m1 prev ++ [error_message]) st
    end in
  setIsLoading false st.

(** ** The page as a transition system *)

(** The pending state of the component, the state seen by the last render,
    whose handlers are the ones attached to the form, and the requests that
    have been sent and have not settled yet. *)
Record page : Type := mkPage {
  ui : state;
  rendered : state;
  outstanding : list Request
}.

Definition initial_page : page :=
  {| ui := initial_state; rendered := initial_state; outstanding := [] |}.

(** React renders the pending state. *)
Definition render (p : page) : page :=
  {| ui := ui p; rendered := ui p; outstanding := outstanding p |}.

(** The input field changes: [setInput(e.target.value)]. *)
Definition change (s : jsstring) (p : page) : page :=
  {| ui := setInput s (ui p); rendered := rendered p; outstanding := outstanding p |}.

(** The form is submitted: the handler of the last render runs on the
    pending state. *)
Definition submit (p : page) : page :=
  let '(st, sent) := handleSubmit_in (rendered p) (ui p) in
  {| ui := st; rendered := rendered p; outstanding := outstanding p ++ option_list sent |}.

(** The events of the page. Nothing orders a render against the other
    events: two form events can be handled by the same render. *)
Inductive step : page → page → Prop :=
  | step_change p s :
      step p (change s p)
  | step_render p :
      step p (render p)
  | step_submit p :
      step p (submit p)
  | step_settle p before request after o :
      outstanding p = before ++ request :: after →
      step p {| ui := handleSubmit_settled o (ui p);
                rendered := rendered p;
                outstanding := before ++ after |}.

Definition reachable (p : page) : Prop := rtc step initial_page p.

(** The steps of a run in which every form event is handled by a render that
    has seen the current in-flight flag, as it is when React has rendered
    again between a change of the flag and the next form event. *)
Inductive fresh_step : page → page → Prop :=
  | fresh_change p s :
      fresh_step p (change s p)
  | fresh_render p :
      fresh_step p (render p)
  | fresh_submit p :
      isLoading (rendered p) = isLoading (ui p) →
      fresh_step p (submit p)
  | fresh_settle p before request after o :
      outstanding p = before ++ request :: after →
      fresh_step p {| ui := handleSubmit_settled o (ui p);
                      rendered := rendered p;
                      outstanding := before ++ after |}.

Definition reachable_fresh (p : page) : Prop := rtc fresh_step initial_page p.

(** ** Messages of a reachable conversation *)

(** The truthiness test the component applies to [message.isLoading]. *)
Definition is_loading (m : Message.t) : bool :=
  match Message.isLoading m with
  | Some true => true
  | _ => false
  end.

Definition loading_count (l : list Message.t) : nat :=
  length (List.filter is_loading l).

(** The messages that are not placeholders: where each one comes from. *)
Inductive finalized : Message.t → Prop :=
  | finalized_welcome :
      finalized welcome_message
  | finalized_user text :
      trim text ≠ [] → finalized (user_message (trim text))
  | finalized_answer data sources :
      transformedSources data = Normal sources →
      finalized (answer_message data sources)
  | finalized_error :
      finalized error_message.

(** The invariant of the runs of [fresh_step]. Idle, every message is
    finalized and nothing is outstanding; in flight, one request is
    outstanding and the conversation is a list of finalized messages followed
    by the placeholder. *)
Definition page_inv (p : page) : Prop :=
  if isLoading (ui p)
  then (∃ request, outstanding p = [request]) ∧
       ∃ l, messages (ui p) = l ++ [loading_message] ∧ Forall finalized l
  else outstanding p = [] ∧ Forall finalized (messages (ui p)).

(** A transport or protocol failure: the request never got a response, the
    response has a non-success status, or its body is not JSON text. *)
Definition transport_failure (o : settled) : Prop :=
  match o with
  | Rejected => True
  | Fulfilled r => ok r = false ∨ json r = None
  end.

Definition nullish (v : value) : bool :=
  match v with
  | VUndefined | VNull => true
  | _ => false
  end.

(** The source built from one citation item that is neither [null] nor
    [undefined]. *)
Definition source_of (item : value) : Source.t :=
  Source.mk (member item (lit "source_text_preview")) (member item (lit "metadata")).

(** The placeholder property of a page: at most one message is loading, and
    while a request is outstanding (equivalently, while the flag is raised)
    that message is the last one. *)
Definition placeholder_last (p : page) : Prop :=
  (loading_count (messages (ui p)) ≤ 1)%nat ∧
  (outstanding p ≠ [] ∨ isLoading (ui p) = true →
   ∃ m, last (messages (ui p)) = Some m ∧ Message.isLoading m = Some true).

(** C8 as the specification states it: a message carries [sources] only when
    its exchange returned citations, so that a [sources] field that is present
    is never empty. *)
Definition sources_only_with_citations : Prop :=
  ∀ p, reachable p →
    ∀ m l, m ∈ messages (ui p) → Message.sources m = Some l → l ≠ [].

(** ** One exchange *)

(** A submission followed by the settling of its request. *)
Definition exchange (o : settled) (st : state) : state :=
  handleSubmit_settled o (handleSubmit st).1.

(** The scenario of the specification. *)
Definition duty_question : jsstring :=
  lit "What is the duty on second-hand clothes?".

Definition duty_reply : value :=
  VObject
    [(lit "answer", VString (lit "15% ad valorem"));
     (lit "sources",
      VArray
        [VObject
           [(lit "source_text_preview", VString (lit "Tariff Schedule Part II, Item 12"));
            (lit "metadata", VObject [(lit "section", VString (lit "12"))])]])].

Definition duty_sources : list Source.t :=
  [Source.mk (VString (lit "Tariff Schedule Part II, Item 12"))
             (VObject [(lit "section", VString (lit "12"))])].

Definition asking : state := setInput (lit "  " ++ duty_question ++ lit " ") initial_state.

Definition awaiting : state := (handleSubmit asking).1.

(** Pages of that scenario. *)

Definition typed_page : page := mkPage asking initial_state [].

Definition asking_page : page := mkPage asking asking [].

Definition awaiting_page : page := mkPage awaiting asking [chat_request duty_question].

(** A reply with an answer and no [sources] property. *)
Definition bare_reply : value :=
  VObject [(lit "answer", VString (lit "15% ad valorem"))].

Definition answered_bare_page : page :=
  mkPage (handleSubmit_settled (Fulfilled (mkResponse 200 (Some bare_reply))) awaiting)
         asking [].

(** The form is submitted twice before React renders again, and both
    requests are answered. *)
Definition twice_submitted_page : page := submit (submit asking_page).

Definition twice_answered_page : page :=
  mkPage (handleSubmit_settled (Fulfilled (mkResponse 200 (Some bare_reply)))
            (handleSubmit_settled (Fulfilled (mkResponse 200 (Some duty_reply)))
               (ui twice_submitted_page)))
         asking [].

(** ** The shape of a conversation *)

(** The messages that finalize an exchange. *)
Inductive reply : Message.t → Prop :=
  | reply_answer data sources :
      transformedSources data = Normal sources →
      reply (answer_message data sources)
  | reply_error :
      reply error_message.

(** A run of finished exchanges: a user message, then its reply. *)
Inductive exchanges : list Message.t → Prop :=
  | exchanges_nil :
      exchanges []
  | exchanges_snoc l text r :
      exchanges l → trim text ≠ [] → reply r →
      exchanges (l ++ [user_message (trim text); r]).

(** The shape of the pages of the runs of [fresh_step]: the welcome message,
    the finished exchanges and, while the flag is raised, the exchange in
    progress, whose request is the one outstanding. *)
Definition conversation_inv (p : page) : Prop :=
  ∃ l, exchanges l ∧
    if isLoading (ui p)
    then ∃ text, trim text ≠ [] ∧
           outstanding p = [chat_request (trim text)] ∧
           messages (ui p) =
             welcome_message :: l ++ [user_message (trim text); loading_message]
    else outstanding p = [] ∧ messages (ui p) = welcome_message :: l.

(** What closes a turn of the conversation: a reply, or the placeholder. *)
Inductive closing : Message.t → Prop :=
  | closing_reply r :
      reply r → closing r
  | closing_placeholder :
      closing loading_message.

(** A run of turns: a user message, then what closes it. *)
Inductive turns : list Message.t → Prop :=
  | turns_nil :
      turns []
  | turns_snoc l text r :
      turns l → trim text ≠ [] → closing r →
      turns (l ++ [user_message (trim text); r]).

(** The shape of every reachable page: the welcome message and a run of
    turns, of which there is at least one while a request is outstanding. *)
Definition turns_inv (p : page) : Prop :=
  ∃ l, turns l ∧
       messages (ui p) = welcome_message :: l ∧
       (outstanding p ≠ [] → l ≠ []).

(** The body of a response from which the success branch can build its
    message: neither [null] nor [undefined], with a [sources] property that
    is falsy or an array without [null]. *)
Definition readable (data : value) : Prop :=
  nullish data = false ∧
  (ToBoolean (member data (lit "sources")) = false ∨
   ∃ items, member data (lit "sources") = VArray items ∧
            Forall (λ item, nullish item = false) items).

(** The outcomes that reach the success branch with the body [data]. *)
Definition answerable (o : settled) (data : value) : Prop :=
  ∃ r, o = Fulfilled r ∧ ok r = true ∧ json r = Some data ∧ readable data.

(** ** The render layer *)

(** The three colourings of a bubble, chosen by the class names of the
    [ChatMessage] component. *)
Inductive bubble_style : Type := user_style | error_style | assistant_style.

(** One entry of the expanded list: the number after [Citation], and the
    operand of the template literal that quotes the excerpt. *)
Record citation : Type := mkCitation {
  number : nat;
  quoted : value
}.

(** The block under an assistant bubble: the count and the wording of the
    badge and, when expanded, the list of citations. *)
Record citations_block : Type := mkCitationsBlock {
  badge_count : nat;
  badge_label : jsstring;
  listed : option (list citation)
}.

Record bubble : Type := mkBubble {
  on_right : bool;
  style : bubble_style;
  paragraph : value;
  cited : option citations_block
}.

Definition is_user (m : Message.t) : bool :=
  match Message.role m with
  | user => true
  | assistant => false
  end.

(** The truthiness test the component applies to [message.error]. *)
Definition is_error (m : Message.t) : bool :=
  match Message.error m with
  | Some true => true
  | _ => false
  end.

(** [message.sources && message.sources.length > 0], with the array when the
    test succeeds. *)
Definition shown_sources (m : Message.t) : option (list Source.t) :=
  match Message.sources m with
  | Some (source :: rest) => Some (source :: rest)
  | _ => None
  end.

Definition sources_block (sources : list Source.t) (expandedSources : bool)
  : citations_block :=
  {| badge_count := length sources;
     badge_label :=
       if (length sources =? 1)%nat then lit "Source Cited" else lit "Sources Cited";
     listed :=
       if expandedSources
       then Some (imap (λ idx source, mkCitation (idx + 1) (Source.text source)) sources)
       else None |}.

(** The element [ChatMessage] returns for a message, given the local state
    [expandedSources] of that instance; [None] is [null]. *)
Definition ChatMessage (message : Message.t) (expandedSources : bool) : option bubble :=
  let isUser := is_user message in
  if is_loading message then None
  else
    Some {| on_right := isUser;
            style :=
              if isUser then user_style
              else if is_error message then error_style
              else assistant_style;
            paragraph := Message.content message;
            cited :=
              if isUser then None
              else
                match shown_sources message with
                | Some sources => Some (sources_block sources expandedSources)
                | None => None
                end |}.

(** What [NCSChatbot] shows of its state: one [ChatMessage] per message, keyed
    by its index, the typing indicator, and the input field with its button.
    [expanded] gives the local state of the [ChatMessage] at each key. *)
Record view : Type := mkView {
  bubbles : list (option bubble);
  typing_indicator : bool;
  field_value : jsstring;
  field_disabled : bool;
  button_disabled : bool
}.

Definition NCSChatbot (st : state) (expanded : nat → bool) : view :=
  {| bubbles := imap (λ index message, ChatMessage message (expanded index)) (messages st);
     typing_indicator := isLoading st;
     field_value := input st;
     field_disabled := isLoading st;
     button_disabled := isLoading st || negb (ToBoolean (VString (trim (input st)))) |}.

(** The run that types the question, renders it and submits it. *)
Ltac reach_awaiting :=
  eapply rtc_r; [|apply (step_submit asking_page)];
  eapply rtc_r; [|apply (step_render typed_page)];
  eapply rtc_r; [apply rtc_refl|];
  apply (step_change initial_page (lit "  " ++ duty_question ++ lit " ")).

Ltac reach_awaiting_fresh :=
  eapply rtc_r; [|apply (fresh_submit asking_page); reflexivity];
  eapply rtc_r; [|apply (fresh_render typed_page)];
  eapply rtc_r; [apply rtc_refl|];
  apply (fresh_change initial_page (lit "  " ++ duty_question ++ lit " ")).

(** Closes the two goals about a message built without a [sources] field. *)
Ltac without_sources :=
  split; [|done];
  split; [by intros [? [=]] | by intros (? & ? & _ & [=] & _)].

(** ** Strings and values *)

Lemma ToBoolean_string s : ToBoolean (VString s) = true ↔ s ≠ [].
Proof. destruct s; simpl; split; intros; congruence. Qed.

Lemma ToBoolean_string_false s : ToBoolean (VString s) = false ↔ s = [].
Proof. destruct s; simpl; split; intros; congruence. Qed.

Lemma get_not_nullish v k : nullish v = false → get v k = Normal (member v k).
Proof. by destruct v. Qed.

Lemma get_Normal v k w : get v k = Normal w → nullish v = false ∧ w = member v k.
Proof. destruct v; simpl; intros; simplify_eq; done. Qed.

Lemma member_not_undefined v k : member v k ≠ VUndefined → nullish v = false.
Proof. by destruct v. Qed.

(** ** Lists *)

Lemma slice_0_m1_snoc {A} (l : list A) x : slice_0_m1 (l ++ [x]) = l.
Proof.
  unfold slice_0_m1. rewrite length_app. simpl.
  replace (length l + 1 - 1)%nat with (length l) by lia.
  by rewrite take_app_length.
Qed.

Lemma slice_0_m1_lookup {A} (l : list A) i :
  (S i < length l)%nat → slice_0_m1 l !! i = l !! i.
Proof. intros Hi. unfold slice_0_m1. apply lookup_take_lt. lia. Qed.

Lemma slice_0_m1_length {A} (l : list A) :
  length (slice_0_m1 l) = (length l - 1)%nat.
Proof. unfold slice_0_m1. rewrite length_take. lia. Qed.

(** ** [map] over the citations *)

Lemma mapM_Normal_Forall2 {A B} (f : A → completion B) l k :
  mapM f l = Normal k → Forall2 (λ a b, f a = Normal b) l k.
Proof.
  revert k. induction l as [|a l IH]; simpl; intros k Hk.
  - injection Hk as <-. constructor.
  - destruct (f a) as [b|e] eqn:Hfa; simpl in Hk; [|discriminate].
    destruct (mapM f l) as [k'|e] eqn:Hl; simpl in Hk; [|discriminate].
    injection Hk as <-. constructor; auto.
Qed.

Lemma mapM_Normal_fmap {A B} (f : A → completion B) (g : A → B) l :
  Forall (λ a, f a = Normal (g a)) l → mapM f l = Normal (g <$> l).
Proof.
  induction 1 as [|a l Ha _ IH]; simpl; [done|].
  by rewrite Ha; simpl; rewrite IH.
Qed.

Lemma transform_source_not_nullish item :
  nullish item = false → transform_source item = Normal (source_of item).
Proof. intros H. unfold transform_source. by rewrite !get_not_nullish. Qed.

Lemma transform_source_Normal item s :
  transform_source item = Normal s → nullish item = false ∧ s = source_of item.
Proof.
  unfold transform_source.
  destruct item; simpl; intros H; try discriminate H; by injection H as <-.
Qed.

Lemma transformedSources_array data items :
  member data (lit "sources") = VArray items →
  Forall (λ item, nullish item = false) items →
  transformedSources data = Normal (source_of <$> items).
Proof.
  intros Hs Hitems. unfold transformedSources.
  rewrite get_not_nullish by (apply (member_not_undefined _ (lit "sources")); by rewrite Hs).
  rewrite Hs. simpl. apply mapM_Normal_fmap.
  eapply Forall_impl; [exact Hitems|]. apply transform_source_not_nullish.
Qed.

Lemma transformedSources_falsy data :
  nullish data = false →
  ToBoolean (member data (lit "sources")) = false →
  transformedSources data = Normal [].
Proof.
  intros Hd Hs. unfold transformedSources. rewrite get_not_nullish by done.
  simpl. unfold js_or. by rewrite Hs.
Qed.

Lemma mapM_transform_source items l :
  mapM transform_source items = Normal l →
  Forall (λ item, nullish item = false) items ∧ l = source_of <$> items.
Proof.
  intros H. apply mapM_Normal_Forall2 in H.
  induction H as [|item s items l Hs _ [IH1 IH2]]; [done|].
  apply transform_source_Normal in Hs as [Hitem ->].
  split; [by constructor|]. simpl. by rewrite IH2.
Qed.

(** The mapping of the citations finishes exactly on a body that is neither
    [null] nor [undefined] and whose [sources] property is falsy, or an array
    without [null]; it yields one source per item. *)
Lemma transformedSources_Normal data l :
  transformedSources data = Normal l →
  nullish data = false ∧
  ((ToBoolean (member data (lit "sources")) = false ∧ l = []) ∨
   ∃ items, member data (lit "sources") = VArray items ∧
            Forall (λ item, nullish item = false) items ∧
            l = source_of <$> items).
Proof.
  unfold transformedSources. intros H.
  destruct (get data (lit "sources")) as [s|e] eqn:Hget; simpl in H; [|discriminate].
  apply get_Normal in Hget as [Hdata ->]. split; [done|].
  unfold js_or in H.
  destruct (ToBoolean (member data (lit "sources"))) eqn:Htruthy.
  - right. destruct (member data (lit "sources")) as [| | | | |items|];
      simpl in H; try discriminate.
    exists items. split; [done|]. by apply mapM_transform_source.
  - left. simpl in H. by injection H as <-.
Qed.

(** Once [data.sources] has been mapped without an exception, reading a
    property of [data] does not throw. *)
Lemma transformedSources_get data sources k :
  transformedSources data = Normal sources → get data k = Normal (member data k).
Proof.
  intros H. apply get_not_nullish. unfold transformedSources in H.
  by destruct data.
Qed.

(** ** The two halves of the handler *)

Lemma handleSubmit_in_accepted render st :
  trim (input render) ≠ [] → isLoading render = false →
  handleSubmit_in render st =
    ({| messages := messages st ++ [user_message (trim (input render)); loading_message];
        input := [];
        isLoading := true |},
     Some (chat_request (trim (input render)))).
Proof.
  intros Hin Hfl. unfold handleSubmit_in.
  apply ToBoolean_string in Hin. rewrite Hin, Hfl. simpl.
  unfold setIsLoading, setMessages, setInput. simpl.
  by rewrite <- app_assoc.
Qed.

Lemma handleSubmit_in_rejected render st :
  isLoading render = true ∨ trim (input render) = [] →
  handleSubmit_in render st = (st, None).
Proof.
  intros [Hfl|Hin]; unfold handleSubmit_in.
  - rewrite Hfl. by rewrite orb_true_r.
  - apply ToBoolean_string_false in Hin. by rewrite Hin.
Qed.

(** The guard decides on the render alone. *)
Lemma handleSubmit_in_cases render :
  (isLoading render = true ∨ trim (input render) = []) ∨
  (trim (input render) ≠ [] ∧ isLoading render = false).
Proof.
  destruct (isLoading render); [left; by left|].
  destruct (decide (trim (input render) = [])); [left; by right|by right].
Qed.

Lemma submit_rejected_is_noop_page pending render requests :
  isLoading render = true ∨ trim (input render) = [] →
  submit (mkPage pending render requests) = mkPage pending render requests.
Proof.
  intros Hrej. unfold submit. simpl.
  rewrite (handleSubmit_in_rejected render pending Hrej). simpl.
  by rewrite app_nil_r.
Qed.

Lemma handleSubmit_accepted st :
  trim (input st) ≠ [] → isLoading st = false →
  handleSubmit st =
    ({| messages := messages st ++ [user_message (trim (input st)); loading_message];
        input := [];
        isLoading := true |},
     Some (chat_request (trim (input st)))).
Proof. apply handleSubmit_in_accepted. Qed.

Lemma handleSubmit_accepted_messages st :
  trim (input st) ≠ [] → isLoading st = false →
  messages (handleSubmit st).1 =
    (messages st ++ [user_message (trim (input st))]) ++ [loading_message].
Proof.
  intros Hin Hfl. rewrite (handleSubmit_accepted st Hin Hfl). simpl.
  by rewrite <- app_assoc.
Qed.

Lemma handleSubmit_rejected st :
  isLoading st = true ∨ trim (input st) = [] → handleSubmit st = (st, None).
Proof. apply handleSubmit_in_rejected. Qed.

Lemma try_block_success r data sources :
  ok r = true → json r = Some data → transformedSources data = Normal sources →
  try_block (Fulfilled r) = Normal (data, sources).
Proof.
  intros Hok Hjson Hsrc. unfold try_block, await_json. simpl.
  rewrite Hok, Hjson. simpl. by rewrite Hsrc.
Qed.

Lemma try_block_Normal o data sources :
  try_block o = Normal (data, sources) →
  ∃ r, o = Fulfilled r ∧ ok r = true ∧ json r = Some data ∧
       transformedSources data = Normal sources.
Proof.
  unfold try_block, await_json. destruct o as [|r]; simpl; [discriminate|].
  destruct (ok r) eqn:Hok; simpl; [|discriminate].
  destruct (json r) as [d|] eqn:Hjson; simpl; [|discriminate].
  destruct (transformedSources d) as [l|e] eqn:Hsrc; simpl; [|discriminate].
  intros [= -> ->]. by exists r.
Qed.

Lemma try_block_transport_failure o :
  transport_failure o → ∃ e, try_block o = Throw e.
Proof.
  unfold try_block, await_json. destruct o as [|r]; simpl; [eauto|].
  intros [Hok|Hjson].
  - rewrite Hok. simpl. eauto.
  - destruct (ok r); simpl; [|eauto]. rewrite Hjson. simpl. eauto.
Qed.

Lemma handleSubmit_settled_success o data sources st :
  try_block o = Normal (data, sources) →
  handleSubmit_settled o st =
    {| messages := slice_0_m1 (messages st) ++ [answer_message data sources];
       input := input st;
       isLoading := false |}.
Proof. intros H. unfold handleSubmit_settled. by rewrite H. Qed.

Lemma handleSubmit_settled_failure o e st :
  try_block o = Throw e →
  handleSubmit_settled o st =
    {| messages := slice_0_m1 (messages st) ++ [error_message];
       input := input st;
       isLoading := false |}.
Proof. intros H. unfold handleSubmit_settled. by rewrite H. Qed.

(** Whatever the service did, the continuation replaces the last message by
    one finalized message and clears the flag. *)
Lemma handleSubmit_settled_cases o st :
  ∃ m, finalized m ∧
       handleSubmit_settled o st =
         {| messages := slice_0_m1 (messages st) ++ [m];
            input := input st;
            isLoading := false |}.
Proof.
  destruct (try_block o) as [[data sources]|e] eqn:Htry.
  - exists (answer_message data sources). split.
    + apply try_block_Normal in Htry as (r & _ & _ & _ & Hsrc).
      by constructor.
    + by apply handleSubmit_settled_success.
  - exists error_message. split; [constructor|].
    by eapply handleSubmit_settled_failure.
Qed.

(** ** The invariant of the page *)

Lemma page_inv_initial : page_inv initial_page.
Proof.
  unfold page_inv. simpl. split; [done|].
  repeat constructor.
Qed.

Lemma page_inv_step p p' : page_inv p → fresh_step p p' → page_inv p'.
Proof.
  intros Hinv Hstep.
  destruct Hstep as [p s|p|p Hfresh|p before request after o Hout].
  - exact Hinv.
  - exact Hinv.
  - unfold submit.
    destruct (handleSubmit_in_cases (rendered p)) as [Hrej|[Hin Hfl]].
    + rewrite (handleSubmit_in_rejected _ (ui p) Hrej). simpl.
      unfold page_inv in *. simpl. by rewrite app_nil_r.
    + rewrite (handleSubmit_in_accepted _ (ui p) Hin Hfl).
      rewrite Hfresh in Hfl.
      unfold page_inv in *. rewrite Hfl in Hinv. destruct Hinv as [Hnone Hall].
      simpl. rewrite Hnone. split; [eauto|].
      exists (messages (ui p) ++ [user_message (trim (input (rendered p)))]). split.
      * by rewrite <- app_assoc.
      * apply Forall_app. split; [done|]. repeat constructor. done.
  - destruct (handleSubmit_settled_cases o (ui p)) as (m & Hm & ->).
    unfold page_inv in *. simpl.
    destruct (isLoading (ui p)).
    + destruct Hinv as [[request' Hone] (l & Hl & Hall)].
      rewrite Hout in Hone.
      destruct before as [|b before]; simpl in Hone.
      * injection Hone as _ ->. split; [done|].
        rewrite Hl, slice_0_m1_snoc. apply Forall_app. split; [done|].
        by repeat constructor.
      * injection Hone as _ Hone. by destruct before.
    + destruct Hinv as [Hnone _]. rewrite Hout in Hnone. by destruct before.
Qed.

Lemma reachable_fresh_page_inv p : reachable_fresh p → page_inv p.
Proof.
  unfold reachable_fresh. revert p. apply rtc_ind_r.
  - apply page_inv_initial.
  - intros p p' _ Hstep IH. by eapply page_inv_step.
Qed.

Lemma fresh_step_step p p' : fresh_step p p' → step p p'.
Proof.
  destruct 1 as [p s|p|p _|p before request after o Hout].
  - apply step_change.
  - apply step_render.
  - apply step_submit.
  - apply (step_settle p before request after o Hout).
Qed.

Lemma reachable_fresh_reachable p : reachable_fresh p → reachable p.
Proof.
  unfold reachable_fresh, reachable. apply rtc_subrel.
  intros ??. apply fresh_step_step.
Qed.

(** ** The shape of every reachable page *)

Lemma handleSubmit_settled_reply o st :
  ∃ m, reply m ∧
       handleSubmit_settled o st =
         {| messages := slice_0_m1 (messages st) ++ [m];
            input := input st;
            isLoading := false |}.
Proof.
  destruct (try_block o) as [[data sources]|e] eqn:Htry.
  - exists (answer_message data sources). split.
    + apply try_block_Normal in Htry as (r & _ & _ & _ & Hsrc). by constructor.
    + by apply handleSubmit_settled_success.
  - exists error_message. split; [constructor|].
    by eapply handleSubmit_settled_failure.
Qed.

Lemma turns_inv_initial : turns_inv initial_page.
Proof. exists []. split; [constructor|]. by split. Qed.

Lemma turns_inv_step p p' : turns_inv p → step p p' → turns_inv p'.
Proof.
  intros (l & Hl & Hmsgs & Hout) Hstep.
  destruct Hstep as [p s|p|p|p before request after o Hreq].
  - by exists l.
  - by exists l.
  - unfold submit.
    destruct (handleSubmit_in_cases (rendered p)) as [Hrej|[Hin Hfl]].
    + rewrite (handleSubmit_in_rejected _ (ui p) Hrej). simpl.
      exists l. split; [done|]. split; [done|]. by rewrite app_nil_r.
    + rewrite (handleSubmit_in_accepted _ (ui p) Hin Hfl). simpl.
      exists (l ++ [user_message (trim (input (rendered p))); loading_message]).
      split; [constructor; by try constructor|].
      split; [by rewrite Hmsgs|].
      intros _ Hnil. by apply app_eq_nil in Hnil as [_ ?].
  - destruct (handleSubmit_settled_reply o (ui p)) as (m & Hm & ->). simpl.
    assert (l ≠ []) as Hne by (apply Hout; rewrite Hreq; by destruct before).
    destruct Hl as [|l text r Hl Htext _]; [done|].
    exists (l ++ [user_message (trim text); m]).
    split; [constructor; by try constructor|].
    split.
    + rewrite Hmsgs.
      replace (welcome_message :: l ++ [user_message (trim text); r])
        with ((welcome_message :: l ++ [user_message (trim text)]) ++ [r])
        by (simpl; by rewrite <- app_assoc).
      rewrite slice_0_m1_snoc. simpl. by rewrite <- app_assoc.
    + intros _ Hnil. by apply app_eq_nil in Hnil as [_ ?].
Qed.

Lemma reachable_turns_inv p : reachable p → turns_inv p.
Proof.
  unfold reachable. revert p. apply rtc_ind_r.
  - apply turns_inv_initial.
  - intros p p' _ Hstep IH. by eapply turns_inv_step.
Qed.

Lemma reply_finalized r : reply r → finalized r.
Proof. destruct 1; by constructor. Qed.

Lemma turns_messages l m :
  turns l → m ∈ l → finalized m ∨ m = loading_message.
Proof.
  induction 1 as [|l text r _ IH Htext Hr]; intros Hm.
  - by apply elem_of_nil in Hm.
  - apply elem_of_app in Hm as [Hm|Hm]; [by apply IH|].
    apply elem_of_cons in Hm as [->|Hm]; [left; by constructor|].
    apply list_elem_of_singleton in Hm as ->.
    destruct Hr as [r Hr|]; [left; by apply reply_finalized|by right].
Qed.

Lemma finalized_not_loading m : finalized m → is_loading m = false.
Proof. by destruct 1. Qed.

Lemma loading_count_finalized l : Forall finalized l → loading_count l = 0%nat.
Proof.
  unfold loading_count. induction 1 as [|m l Hm _ IH]; simpl; [done|].
  by rewrite (finalized_not_loading _ Hm).
Qed.

Lemma loading_count_app l k :
  loading_count (l ++ k) = (loading_count l + loading_count k)%nat.
Proof. unfold loading_count. by rewrite List.filter_app, length_app. Qed.

(** ** The scenario, evaluated *)

Example trim_asking : trim (input asking) = duty_question.
Proof. reflexivity. Qed.

Example trim_unicode_spaces :
  trim [0x00A0; 0x0041; 0x0020; 0x0042; 0x2003; 0x000A]%N = [0x0041; 0x0020; 0x0042]%N.
Proof. reflexivity. Qed.

Example handleSubmit_blank_input :
  handleSubmit (setInput (lit "   ") initial_state) =
    (setInput (lit "   ") initial_state, None).
Proof. reflexivity. Qed.

Example handleSubmit_asking :
  handleSubmit asking =
    ({| messages := [welcome_message; user_message duty_question; loading_message];
        input := [];
        isLoading := true |},
     Some (chat_request duty_question)).
Proof. reflexivity. Qed.

Example number_truthy_zeroes_and_nan :
  number_truthy 0 = false ∧
  number_truthy 0x8000000000000000 = false ∧
  number_truthy 0x7FF8000000000000 = false ∧
  number_truthy 0x3FF0000000000000 = true ∧
  number_truthy 0x7FF0000000000000 = true.
Proof. repeat split. Qed.

Example transformedSources_duty_reply :
  transformedSources duty_reply = Normal duty_sources.
Proof. reflexivity. Qed.

Example transformedSources_null : transformedSources VNull = Throw TypeError.
Proof. reflexivity. Qed.

Example transformedSources_not_an_array :
  transformedSources (VObject [(lit "sources", VString (lit "none"))]) = Throw TypeError.
Proof. reflexivity. Qed.

Example transformedSources_null_item :
  transformedSources (VObject [(lit "sources", VArray [VNull])]) = Throw TypeError.
Proof. reflexivity. Qed.

Example exchange_duty :
  messages (exchange (Fulfilled (mkResponse 200 (Some duty_reply))) asking) =
    [welcome_message;
     user_message duty_question;
     Message.mk assistant (VString (lit "15% ad valorem")) (Some duty_sources) None None].
Proof. reflexivity. Qed.

Example exchange_unreachable :
  messages (exchange Rejected asking) =
    [welcome_message; user_message duty_question; error_message].
Proof. reflexivity. Qed.

Example exchange_server_error :
  exchange (Fulfilled (mkResponse 500 (Some duty_reply))) asking =
    {| messages := [welcome_message; user_message duty_question; error_message];
       input := [];
       isLoading := false |}.
Proof. reflexivity. Qed.

(** ** The claims *)

(** C3. When the trimmed input is not empty and no request is in flight,
    [handleSubmit] appends exactly two messages before the response resolves:
    a user message whose content is the trimmed input, then an assistant
    placeholder with [isLoading = true] and empty content. It also clears the
    input field, raises the flag and sends the trimmed text as the query. *)
Theorem submit_appends_user_then_placeholder (st : state) :
  trim (input st) ≠ [] →
  isLoading st = false →
  ∃ u ph,
    messages (handleSubmit st).1 = messages st ++ [u; ph] ∧
    length (messages (handleSubmit st).1) = (length (messages st) + 2)%nat ∧
    u = Message.mk user (VString (trim (input st))) None None None ∧
    ph = Message.mk assistant (VString []) None (Some true) None ∧
    isLoading (handleSubmit st).1 = true ∧
    (handleSubmit st).2 = Some (chat_request (trim (input st))).
Proof.
  intros Hin Hfl. rewrite (handleSubmit_accepted st Hin Hfl). simpl.
  eexists _, _. split; [reflexivity|].
  rewrite length_app. simpl. repeat split; lia.
Qed.

Lemma submit_appends_user_then_placeholder_witness :
  ∃ u ph,
    messages (handleSubmit asking).1 = messages asking ++ [u; ph] ∧
    length (messages (handleSubmit asking).1) = (length (messages asking) + 2)%nat ∧
    u = Message.mk user (VString (trim (input asking))) None None None ∧
    ph = Message.mk assistant (VString []) None (Some true) None ∧
    isLoading (handleSubmit asking).1 = true ∧
    (handleSubmit asking).2 = Some (chat_request (trim (input asking))).
Proof.
  apply (submit_appends_user_then_placeholder asking).
  - vm_compute. discriminate.
  - reflexivity.
Defined.

(** C4. When the in-flight flag the handler reads is true, and likewise
    when the trimmed input it reads is empty, [handleSubmit] is a no-op: the
    state (conversation, input and flag) is unchanged and no request is sent.
    This holds of the handler of the render of the current state, and of the
    handler of such a render whatever the pending state has become, so that
    the page and its outstanding requests are unchanged too. *)
Theorem submit_rejected_is_noop (st : state) :
  isLoading st = true ∨ trim (input st) = [] →
  handleSubmit st = (st, None) ∧
  ∀ pending requests,
    handleSubmit_in st pending = (pending, None) ∧
    submit (mkPage pending st requests) = mkPage pending st requests.
Proof.
  intros Hrej. split; [by apply handleSubmit_rejected|].
  intros pending requests.
  pose proof (handleSubmit_in_rejected st pending Hrej) as H.
  split; [exact H|].
  unfold submit. simpl. rewrite H. simpl. by rewrite app_nil_r.
Qed.

Lemma submit_rejected_is_noop_witness :
  handleSubmit awaiting = (awaiting, None) ∧
  ∀ pending requests,
    handleSubmit_in awaiting pending = (pending, None) ∧
    submit (mkPage pending awaiting requests) = mkPage pending awaiting requests.
Proof.
  apply (submit_rejected_is_noop awaiting).
  left. reflexivity.
Defined.

(** C1. When the request of a submitted query is answered with a success
    status and a body from which the citations can be read, the continuation
    removes the placeholder, which is the last element, and appends exactly
    one finalized assistant message. Its content is the answer text of the
    service, or the fixed fallback string when the answer is missing or
    empty, and the conversation is two messages longer than before the
    submission. *)
Theorem success_replaces_placeholder (st : state) (r : Response) (data : value)
    (sources : list Source.t) :
  trim (input st) ≠ [] →
  isLoading st = false →
  ok r = true →
  json r = Some data →
  transformedSources data = Normal sources →
  ∃ m,
    last (messages (handleSubmit st).1) = Some loading_message ∧
    messages (exchange (Fulfilled r) st) = slice_0_m1 (messages (handleSubmit st).1) ++ [m] ∧
    messages (exchange (Fulfilled r) st) =
      messages st ++ [user_message (trim (input st)); m] ∧
    length (messages (exchange (Fulfilled r) st)) = (length (messages st) + 2)%nat ∧
    Message.role m = assistant ∧
    Message.isLoading m = None ∧
    Message.error m = None ∧
    Message.content m = js_or (member data (lit "answer")) (VString fallback_text) ∧
    (∀ s, member data (lit "answer") = VString s → s ≠ [] →
          Message.content m = VString s) ∧
    (member data (lit "answer") = VUndefined ∨ member data (lit "answer") = VString [] →
     Message.content m = VString fallback_text).
Proof.
  intros Hin Hfl Hok Hjson Hsrc.
  exists (answer_message data sources).
  unfold exchange.
  rewrite (handleSubmit_settled_success _ data sources)
    by by apply try_block_success.
  simpl. rewrite (handleSubmit_accepted_messages st Hin Hfl).
  rewrite last_snoc, slice_0_m1_snoc, <- app_assoc. simpl.
  repeat split.
  - rewrite length_app. simpl. lia.
  - intros s Hs Hne. rewrite Hs. unfold js_or.
    by rewrite (proj2 (ToBoolean_string s) Hne).
  - by intros [-> | ->].
Qed.

Lemma success_replaces_placeholder_witness :
  ∃ m,
    last (messages (handleSubmit asking).1) = Some loading_message ∧
    messages (exchange (Fulfilled (mkResponse 200 (Some duty_reply))) asking) =
      slice_0_m1 (messages (handleSubmit asking).1) ++ [m] ∧
    messages (exchange (Fulfilled (mkResponse 200 (Some duty_reply))) asking) =
      messages asking ++ [user_message (trim (input asking)); m] ∧
    length (messages (exchange (Fulfilled (mkResponse 200 (Some duty_reply))) asking)) =
      (length (messages asking) + 2)%nat ∧
    Message.role m = assistant ∧
    Message.isLoading m = None ∧
    Message.error m = None ∧
    Message.content m = js_or (member duty_reply (lit "answer")) (VString fallback_text) ∧
    (∀ s, member duty_reply (lit "answer") = VString s → s ≠ [] →
          Message.content m = VString s) ∧
    (member duty_reply (lit "answer") = VUndefined ∨
     member duty_reply (lit "answer") = VString [] →
     Message.content m = VString fallback_text).
Proof.
  apply (success_replaces_placeholder asking (mkResponse 200 (Some duty_reply))
           duty_reply duty_sources).
  - vm_compute. discriminate.
  - reflexivity.
  - reflexivity.
  - reflexivity.
  - reflexivity.
Defined.

(** C2. When the request of a submitted query fails in transport or protocol
    (no response at all, a non-success status, or a body that is not JSON
    text), the continuation removes the placeholder and appends exactly one
    finalized assistant message with [error = true], the fixed
    connectivity-error text and no [sources]; the conversation is two messages
    longer than before the submission. *)
Theorem failure_replaces_placeholder (st : state) (o : settled) :
  trim (input st) ≠ [] →
  isLoading st = false →
  transport_failure o →
  ∃ m,
    messages (exchange o st) = slice_0_m1 (messages (handleSubmit st).1) ++ [m] ∧
    messages (exchange o st) = messages st ++ [user_message (trim (input st)); m] ∧
    length (messages (exchange o st)) = (length (messages st) + 2)%nat ∧
    Message.role m = assistant ∧
    Message.content m = VString connectivity_error_text ∧
    Message.error m = Some true ∧
    Message.sources m = None ∧
    Message.isLoading m = None.
Proof.
  intros Hin Hfl Hfail.
  destruct (try_block_transport_failure o Hfail) as [e He].
  exists error_message. unfold exchange.
  rewrite (handleSubmit_settled_failure _ e) by done.
  simpl. rewrite (handleSubmit_accepted_messages st Hin Hfl).
  rewrite slice_0_m1_snoc, <- app_assoc. simpl.
  repeat split. rewrite length_app. simpl. lia.
Qed.

Lemma failure_replaces_placeholder_witness :
  ∃ m,
    messages (exchange Rejected asking) =
      slice_0_m1 (messages (handleSubmit asking).1) ++ [m] ∧
    messages (exchange Rejected asking) =
      messages asking ++ [user_message (trim (input asking)); m] ∧
    length (messages (exchange Rejected asking)) = (length (messages asking) + 2)%nat ∧
    Message.role m = assistant ∧
    Message.content m = VString connectivity_error_text ∧
    Message.error m = Some true ∧
    Message.sources m = None ∧
    Message.isLoading m = None.
Proof.
  apply (failure_replaces_placeholder asking Rejected).
  - vm_compute. discriminate.
  - reflexivity.
  - exact I.
Defined.

(** ** Reachability *)

Lemma reachable_step p p' : reachable p → step p p' → reachable p'.
Proof. unfold reachable. intros Hp Hstep. by eapply rtc_r. Qed.

Lemma reachable_fresh_step p p' :
  reachable_fresh p → fresh_step p p' → reachable_fresh p'.
Proof. unfold reachable_fresh. intros Hp Hstep. by eapply rtc_r. Qed.

Lemma reachable_initial : reachable initial_page.
Proof. apply rtc_refl. Qed.

Lemma reachable_awaiting : reachable awaiting_page.
Proof. unfold reachable. reach_awaiting. Qed.

Lemma reachable_fresh_awaiting : reachable_fresh awaiting_page.
Proof. unfold reachable_fresh. reach_awaiting_fresh. Qed.

Lemma reachable_answered_bare : reachable answered_bare_page.
Proof.
  eapply reachable_step; [apply reachable_awaiting|].
  apply (step_settle awaiting_page [] (chat_request duty_question) []
           (Fulfilled (mkResponse 200 (Some bare_reply)))).
  reflexivity.
Qed.

Lemma reachable_twice_submitted : reachable twice_submitted_page.
Proof.
  eapply reachable_step; [apply reachable_awaiting|].
  apply (step_submit awaiting_page).
Qed.

Lemma reachable_twice_answered : reachable twice_answered_page.
Proof.
  eapply reachable_step.
  - eapply reachable_step; [apply reachable_twice_submitted|].
    apply (step_settle twice_submitted_page [] (chat_request duty_question)
             [chat_request duty_question]
             (Fulfilled (mkResponse 200 (Some duty_reply)))).
    reflexivity.
  - apply (step_settle
             (mkPage (handleSubmit_settled (Fulfilled (mkResponse 200 (Some duty_reply)))
                        (ui twice_submitted_page))
                     asking [chat_request duty_question])
             [] (chat_request duty_question) []
             (Fulfilled (mkResponse 200 (Some bare_reply)))).
    reflexivity.
Qed.

Lemma page_inv_placeholder_last p : page_inv p → placeholder_last p.
Proof.
  unfold page_inv, placeholder_last. destruct (isLoading (ui p)).
  - intros [_ (l & -> & Hall)]. split.
    + rewrite loading_count_app, (loading_count_finalized _ Hall).
      unfold loading_count. simpl. lia.
    + intros _. exists loading_message. by rewrite last_snoc.
  - intros [Hnone Hall]. split.
    + rewrite (loading_count_finalized _ Hall). lia.
    + intros [Hout|Hfl]; [by rewrite Hnone in Hout | discriminate].
Qed.

(** C5, the defect. The guard of [handleSubmit] reads the [isLoading] of the
    render that created the handler, not the pending flag. When the form is
    submitted twice before React renders again, both calls pass the guard:
    the conversation holds two placeholders, one of them in the middle, and
    two requests are outstanding. When both are answered, the second answer
    takes the place of the first and the first placeholder stays, with the
    flag down and nothing outstanding. *)
Theorem double_submission_leaves_two_placeholders :
  reachable twice_submitted_page ∧
  messages (ui twice_submitted_page) =
    [welcome_message;
     user_message duty_question; loading_message;
     user_message duty_question; loading_message] ∧
  loading_count (messages (ui twice_submitted_page)) = 2%nat ∧
  outstanding twice_submitted_page =
    [chat_request duty_question; chat_request duty_question] ∧
  ¬ placeholder_last twice_submitted_page ∧
  reachable twice_answered_page ∧
  ui twice_answered_page =
    {| messages :=
         [welcome_message;
          user_message duty_question; loading_message;
          user_message duty_question; answer_message bare_reply []];
       input := [];
       isLoading := false |} ∧
  outstanding twice_answered_page = [].
Proof.
  split; [apply reachable_twice_submitted|].
  split; [reflexivity|]. split; [reflexivity|]. split; [reflexivity|].
  split; [intros [H _]; vm_compute in H; lia|].
  split; [apply reachable_twice_answered|].
  split; reflexivity.
Qed.

(** C6. When a success response carries N citation items, the finalized
    assistant message has N sources, in the order received; the [text] of
    each is the [source_text_preview] property of the corresponding item and
    its [metadata] is the [metadata] property of that item. *)
Theorem sources_follow_citations (st : state) (r : Response) (data : value)
    (items : list value) :
  ok r = true →
  json r = Some data →
  member data (lit "sources") = VArray items →
  Forall (λ item, nullish item = false) items →
  ∃ m l,
    last (messages (handleSubmit_settled (Fulfilled r) st)) = Some m ∧
    Message.sources m = Some l ∧
    length l = length items ∧
    ∀ i item, items !! i = Some item →
      l !! i = Some (Source.mk (member item (lit "source_text_preview"))
                               (member item (lit "metadata"))).
Proof.
  intros Hok Hjson Hsrc Hitems.
  pose proof (transformedSources_array data items Hsrc Hitems) as Htr.
  exists (answer_message data (source_of <$> items)), (source_of <$> items).
  rewrite (handleSubmit_settled_success _ data (source_of <$> items))
    by by apply try_block_success.
  simpl. rewrite last_snoc, length_fmap. repeat split.
  intros i item Hi. by rewrite list_lookup_fmap, Hi.
Qed.

Lemma sources_follow_citations_witness :
  ∃ m l,
    last (messages (handleSubmit_settled (Fulfilled (mkResponse 200 (Some duty_reply)))
                      awaiting)) = Some m ∧
    Message.sources m = Some l ∧
    length l = length [VObject
           [(lit "source_text_preview", VString (lit "Tariff Schedule Part II, Item 12"));
            (lit "metadata", VObject [(lit "section", VString (lit "12"))])]] ∧
    ∀ i item,
      [VObject
         [(lit "source_text_preview", VString (lit "Tariff Schedule Part II, Item 12"));
          (lit "metadata", VObject [(lit "section", VString (lit "12"))])]] !! i
        = Some item →
      l !! i = Some (Source.mk (member item (lit "source_text_preview"))
                               (member item (lit "metadata"))).
Proof.
  apply (sources_follow_citations awaiting (mkResponse 200 (Some duty_reply)) duty_reply).
  - reflexivity.
  - reflexivity.
  - reflexivity.
  - repeat constructor.
Defined.

(** C7. The in-flight flag is never left raised: whatever way the request
    settles, in the success branch or in the [catch] clause, the [finally]
    clause has set the flag back to false once the continuation has run, from
    any state and in particular at the end of every exchange. *)
Theorem flag_cleared_on_every_path (o : settled) (st : state) :
  isLoading (handleSubmit_settled o st) = false ∧
  isLoading (exchange o st) = false.
Proof. split; reflexivity. Qed.

(** While the flag is raised on a page of a run of [fresh_step], exactly one
    request is outstanding, and its settling lowers the flag. *)
Lemma raised_flag_has_request p :
  reachable_fresh p → isLoading (ui p) = true →
  ∃ request, outstanding p = [request] ∧
    ∀ o, fresh_step p (mkPage (handleSubmit_settled o (ui p)) (rendered p) []) ∧
         isLoading (handleSubmit_settled o (ui p)) = false.
Proof.
  intros Hp Hfl. apply reachable_fresh_page_inv in Hp. unfold page_inv in Hp.
  rewrite Hfl in Hp. destruct Hp as [[request Hout] _].
  exists request. split; [done|]. intros o. split; [|done].
  by apply (fresh_settle p [] request [] o).
Qed.

(** The messages of a reachable page are finalized messages, except for the
    placeholder. *)
Lemma reachable_message_cases p m :
  reachable p → m ∈ messages (ui p) → finalized m ∨ m = loading_message.
Proof.
  intros Hp Hm. apply reachable_turns_inv in Hp as (l & Hl & Hmsgs & _).
  rewrite Hmsgs in Hm. apply elem_of_cons in Hm as [->|Hm].
  - left. constructor.
  - by eapply turns_messages.
Qed.

Example answered_bare_messages :
  member bare_reply (lit "sources") = VUndefined ∧
  messages (ui answered_bare_page) =
    [welcome_message;
     user_message duty_question;
     Message.mk assistant (VString (lit "15% ad valorem")) (Some []) None None].
Proof. split; reflexivity. Qed.

(** C8, counterexample. A success response without citations leaves an
    assistant message whose [sources] field is present and empty. *)
Lemma sources_present_without_citations : ¬ sources_only_with_citations.
Proof.
  intros Hclaim.
  apply (Hclaim answered_bare_page reachable_answered_bare
           (Message.mk assistant (VString (lit "15% ad valorem")) (Some []) None None) []).
  - rewrite (proj2 answered_bare_messages). set_solver.
  - reflexivity.
  - reflexivity.
Qed.

(** C8, amended. In every reachable page the [sources] field is present
    exactly on the assistant messages finalized by the success branch, where
    it holds the mapped citations of the response (none when the response
    carried none); it is absent on user messages, on the placeholder, on
    error messages and on the welcome message. The success branch always
    stores the field, with the empty list when [data.sources] is falsy; the
    [catch] clause never does. *)
Theorem sources_present_iff_answered (p : page) (m : Message.t) :
  reachable p →
  m ∈ messages (ui p) →
  (is_Some (Message.sources m) ↔
     ∃ data sources, transformedSources data = Normal sources ∧
                     m = answer_message data sources) ∧
  (∀ data sources, m = answer_message data sources →
                   Message.sources m = Some sources) ∧
  (Message.role m = user ∨ Message.isLoading m = Some true ∨
   Message.error m = Some true ∨ m = welcome_message →
   Message.sources m = None) ∧
  (∀ st r data sources,
     ok r = true → json r = Some data → transformedSources data = Normal sources →
     ∃ m', last (messages (handleSubmit_settled (Fulfilled r) st)) = Some m' ∧
           Message.sources m' = Some sources ∧
           (ToBoolean (member data (lit "sources")) = false → sources = [])) ∧
  (∀ st o e,
     try_block o = Throw e →
     ∃ m', last (messages (handleSubmit_settled o st)) = Some m' ∧
           Message.sources m' = None).
Proof.
  intros Hp Hm.
  assert (Hpresent : ∀ data sources,
            m = answer_message data sources → Message.sources m = Some sources)
    by by intros data sources ->.
  split; [|split; [exact Hpresent|split; [|split]]].
  - split.
    + intros Hsome.
      destruct (reachable_message_cases p m Hp Hm) as [Hfin| ->];
        [|by destruct Hsome].
      destruct Hfin as [|text Htext|data sources Hsrc|];
        try (by destruct Hsome).
      by exists data, sources.
    + intros (data & sources & _ & Hanswer).
      rewrite (Hpresent data sources Hanswer). eauto.
  - destruct (reachable_message_cases p m Hp Hm) as [Hfin| ->]; [|done].
    destruct Hfin as [|text Htext|data sources Hsrc|]; try done.
    simpl. intros [[=]|[[=]|[[=]|[=]]]].
  - intros st r data sources Hok Hjson Hsrc.
    exists (answer_message data sources).
    rewrite (handleSubmit_settled_success _ data sources)
      by by apply try_block_success.
    simpl. rewrite last_snoc. split; [done|]. split; [done|].
    intros Hfalsy.
    apply transformedSources_Normal in Hsrc as [_ [[_ ->]|(items & Hitems & _)]];
      [done|].
    by rewrite Hitems in Hfalsy.
  - intros st o e Htry. exists error_message.
    rewrite (handleSubmit_settled_failure o e st Htry). simpl.
    by rewrite last_snoc.
Qed.

Lemma sources_present_iff_answered_witness :
  (is_Some (Message.sources (answer_message bare_reply [])) ↔
     ∃ data sources, transformedSources data = Normal sources ∧
                     answer_message bare_reply [] = answer_message data sources) ∧
  (∀ data sources, answer_message bare_reply [] = answer_message data sources →
                   Message.sources (answer_message bare_reply []) = Some sources) ∧
  (Message.role (answer_message bare_reply []) = user ∨
   Message.isLoading (answer_message bare_reply []) = Some true ∨
   Message.error (answer_message bare_reply []) = Some true ∨
   answer_message bare_reply [] = welcome_message →
   Message.sources (answer_message bare_reply []) = None) ∧
  (∀ st r data sources,
     ok r = true → json r = Some data → transformedSources data = Normal sources →
     ∃ m', last (messages (handleSubmit_settled (Fulfilled r) st)) = Some m' ∧
           Message.sources m' = Some sources ∧
           (ToBoolean (member data (lit "sources")) = false → sources = [])) ∧
  (∀ st o e,
     try_block o = Throw e →
     ∃ m', last (messages (handleSubmit_settled o st)) = Some m' ∧
           Message.sources m' = None).
Proof.
  apply (sources_present_iff_answered answered_bare_page (answer_message bare_reply [])).
  - eapply rtc_r;
      [|apply (step_settle awaiting_page [] (chat_request duty_question) []
                 (Fulfilled (mkResponse 200 (Some bare_reply)))); reflexivity].
    reach_awaiting.
  - apply list_elem_of_In. vm_compute. right. right. left. reflexivity.
Defined.

(** C9. A failed request alters only its own exchange: when the [try] block
    throws, the continuation keeps every message but the last one, at its
    position and with all its fields, and puts the error message in the place
    of the last one. *)
Theorem failure_keeps_prior_messages (st : state) (o : settled) (e : exn) :
  try_block o = Throw e →
  (∀ i, (S i < length (messages st))%nat →
        messages (handleSubmit_settled o st) !! i = messages st !! i) ∧
  (∀ prior ph, messages st = prior ++ [ph] →
               messages (handleSubmit_settled o st) = prior ++ [error_message]) ∧
  (messages st ≠ [] →
   length (messages (handleSubmit_settled o st)) = length (messages st)).
Proof.
  intros Htry. rewrite (handleSubmit_settled_failure o e st Htry). simpl.
  split; [|split].
  - intros i Hi. rewrite lookup_app_l by (rewrite slice_0_m1_length; lia).
    by apply slice_0_m1_lookup.
  - intros prior ph ->. by rewrite slice_0_m1_snoc.
  - intros Hne. rewrite length_app, slice_0_m1_length. simpl.
    destruct (messages st); [done|]. simpl. lia.
Qed.

Lemma failure_keeps_prior_messages_witness :
  (∀ i, (S i < length (messages awaiting))%nat →
        messages (handleSubmit_settled Rejected awaiting) !! i = messages awaiting !! i) ∧
  (∀ prior ph, messages awaiting = prior ++ [ph] →
               messages (handleSubmit_settled Rejected awaiting) = prior ++ [error_message]) ∧
  (messages awaiting ≠ [] →
   length (messages (handleSubmit_settled Rejected awaiting)) = length (messages awaiting)).
Proof.
  apply (failure_keeps_prior_messages awaiting Rejected NetworkError).
  reflexivity.
Defined.

(** C10. In every reachable page every message with role [user] has a
    non-empty content: a submission is accepted only when the trimmed input is
    not empty, the trimmed text is what is stored, and no step changes a user
    message. *)
Theorem user_messages_nonempty (p : page) (m : Message.t) :
  reachable p →
  m ∈ messages (ui p) →
  Message.role m = user →
  ∃ text, Message.content m = VString (trim text) ∧ trim text ≠ [].
Proof.
  intros Hp Hm Hrole.
  destruct (reachable_message_cases p m Hp Hm) as [Hfin| ->]; [|discriminate].
  destruct Hfin as [|text Htext| |]; try discriminate.
  by exists text.
Qed.

Lemma user_messages_nonempty_witness :
  ∃ text, Message.content (user_message duty_question) = VString (trim text) ∧
          trim text ≠ [].
Proof.
  apply (user_messages_nonempty awaiting_page (user_message duty_question)).
  - unfold reachable. reach_awaiting.
  - apply list_elem_of_In. vm_compute. right. left. reflexivity.
  - reflexivity.
Defined.

(** ** What [trim] keeps *)

Lemma trimStart_split s :
  ∃ pre, s = pre ++ trimStart s ∧ Forall (λ c, is_white_space c = true) pre.
Proof.
  induction s as [|c s (pre & Hs & Hpre)]; simpl.
  - by exists [].
  - destruct (is_white_space c) eqn:Hc.
    + exists (c :: pre). split; [by rewrite Hs at 1|]. by constructor.
    + by exists [].
Qed.

Lemma trimStart_head s c :
  head (trimStart s) = Some c → is_white_space c = false.
Proof.
  induction s as [|d s IH]; simpl; [done|].
  destruct (is_white_space d) eqn:Hd; [done|].
  simpl. by intros [= <-].
Qed.

Lemma trimStart_white s :
  Forall (λ c, is_white_space c = true) s ↔ trimStart s = [].
Proof.
  split.
  - induction 1 as [|c s Hc _ IH]; simpl; [done|]. by rewrite Hc.
  - intros H. destruct (trimStart_split s) as (pre & Hs & Hpre).
    rewrite H, app_nil_r in Hs. by subst.
Qed.

Lemma trimEnd_split t :
  ∃ post, t = trimEnd t ++ post ∧ Forall (λ c, is_white_space c = true) post.
Proof.
  unfold trimEnd. destruct (trimStart_split (reverse t)) as (pre & Ht & Hpre).
  exists (reverse pre). split.
  - rewrite <- reverse_app, <- Ht. by rewrite reverse_involutive.
  - by apply Forall_reverse.
Qed.

Lemma trimEnd_last t c :
  last (trimEnd t) = Some c → is_white_space c = false.
Proof. unfold trimEnd. rewrite last_reverse. apply trimStart_head. Qed.

Lemma trimEnd_head t c :
  head (trimEnd t) = Some c → head t = Some c.
Proof.
  destruct (trimEnd_split t) as (post & Ht & _).
  intros H. rewrite Ht. by destruct (trimEnd t).
Qed.

Lemma trim_split s :
  ∃ pre post,
    s = pre ++ trim s ++ post ∧
    Forall (λ c, is_white_space c = true) pre ∧
    Forall (λ c, is_white_space c = true) post.
Proof.
  destruct (trimStart_split s) as (pre & Hs & Hpre).
  destruct (trimEnd_split (trimStart s)) as (post & Ht & Hpost).
  exists pre, post. unfold trim. by rewrite <- Ht.
Qed.

Lemma trim_edges s c :
  head (trim s) = Some c ∨ last (trim s) = Some c → is_white_space c = false.
Proof.
  unfold trim. intros [H|H].
  - by apply trimEnd_head, trimStart_head in H.
  - by apply trimEnd_last in H.
Qed.

Lemma trim_white s :
  Forall (λ c, is_white_space c = true) s ↔ trim s = [].
Proof.
  split.
  - intros H. unfold trim. apply trimStart_white in H. by rewrite H.
  - intros H. destruct (trim_split s) as (pre & post & Hs & Hpre & Hpost).
    rewrite H in Hs. simpl in Hs. subst. by apply Forall_app.
Qed.

(** ** Further properties of the handler *)

(** X1. What an accepted submission stores and sends is the typed text
    without its leading and trailing white space, and nothing else: the input
    is white space, the stored text, then white space; the stored text
    neither begins nor ends with a white-space code unit; and it is both the
    content of the new user message and the query of the request. *)
Theorem submit_strips_outer_white_space (st : state) :
  trim (input st) ≠ [] →
  isLoading st = false →
  ∃ pre q post,
    input st = pre ++ q ++ post ∧
    Forall (λ c, is_white_space c = true) pre ∧
    Forall (λ c, is_white_space c = true) post ∧
    (∀ c, head q = Some c ∨ last q = Some c → is_white_space c = false) ∧
    messages (handleSubmit st).1 = messages st ++ [user_message q; loading_message] ∧
    (handleSubmit st).2 = Some (chat_request q).
Proof.
  intros Hin Hfl.
  destruct (trim_split (input st)) as (pre & post & Hs & Hpre & Hpost).
  exists pre, (trim (input st)), post.
  rewrite (handleSubmit_accepted st Hin Hfl). simpl.
  repeat split; try done. apply trim_edges.
Qed.

Lemma submit_strips_outer_white_space_witness :
  ∃ pre q post,
    input asking = pre ++ q ++ post ∧
    Forall (λ c, is_white_space c = true) pre ∧
    Forall (λ c, is_white_space c = true) post ∧
    (∀ c, head q = Some c ∨ last q = Some c → is_white_space c = false) ∧
    messages (handleSubmit asking).1 = messages asking ++ [user_message q; loading_message] ∧
    (handleSubmit asking).2 = Some (chat_request q).
Proof.
  apply (submit_strips_outer_white_space asking).
  - vm_compute. discriminate.
  - reflexivity.
Defined.

(** X2. [handleSubmit] sends a request exactly when the flag is down and the
    input holds at least one code unit that is not white space; an input made
    of white space only, the empty one included, is ignored. *)
Theorem submit_sends_iff_text (st : state) :
  is_Some (handleSubmit st).2 ↔
    isLoading st = false ∧ Exists (λ c, is_white_space c = false) (input st).
Proof.
  split.
  - intros Hsent.
    destruct (isLoading st) eqn:Hfl.
    { rewrite handleSubmit_rejected in Hsent by by left. by destruct Hsent. }
    split; [done|].
    destruct (decide (trim (input st) = [])) as [Hin|Hin].
    { rewrite handleSubmit_rejected in Hsent by by right. by destruct Hsent. }
    destruct (trim_split (input st)) as (pre & post & Hs & _ & _).
    rewrite Hs. apply Exists_app. right. apply Exists_app. left.
    destruct (trim (input st)) as [|c q] eqn:Hq; [done|].
    apply Exists_cons_hd. apply (trim_edges (input st)). left. by rewrite Hq.
  - intros [Hfl Hex].
    assert (Hin : trim (input st) ≠ []).
    { intros Hin. apply trim_white in Hin.
      apply Exists_exists in Hex as (c & Hc & Hws).
      eapply Forall_forall in Hin; [|exact Hc]. congruence. }
    rewrite (handleSubmit_accepted st Hin Hfl). simpl. eauto.
Qed.

(** X3. The submit button is disabled exactly in the states in which
    submitting the form would be ignored: the test in the button's [disabled]
    attribute and the guard of the handler agree. *)
Theorem button_disabled_iff_submit_ignored (st : state) (expanded : nat → bool) :
  button_disabled (NCSChatbot st expanded) = true ↔ handleSubmit st = (st, None).
Proof.
  simpl. split.
  - intros H. apply handleSubmit_rejected.
    apply orb_true_iff in H as [H|H]; [by left|right].
    apply negb_true_iff in H. by apply ToBoolean_string_false.
  - intros H. destruct (isLoading st) eqn:Hfl; [done|]. simpl.
    apply negb_true_iff.
    destruct (ToBoolean (VString (trim (input st)))) eqn:Hin; [|done].
    apply ToBoolean_string in Hin.
    rewrite (handleSubmit_accepted st Hin Hfl) in H. discriminate.
Qed.

(** X4. Once React has rendered the state left by a submission that sent a
    request, a further submission before the request settles is ignored,
    whatever was typed in between: the page is unchanged and nothing is
    sent. *)
Theorem resubmission_after_render_ignored (p : page) :
  outstanding (submit p) ≠ outstanding p →
  submit (render (submit p)) = render (submit p) ∧
  ∀ s, submit (render (change s (submit p))) = render (change s (submit p)).
Proof.
  intros Hsent.
  assert (Hfl : isLoading (ui (submit p)) = true).
  { unfold submit in *.
    destruct (handleSubmit_in_cases (rendered p)) as [Hrej|[Hin Hacc]].
    - rewrite (handleSubmit_in_rejected _ (ui p) Hrej) in Hsent. simpl in Hsent.
      by rewrite app_nil_r in Hsent.
    - by rewrite (handleSubmit_in_accepted _ (ui p) Hin Hacc). }
  split.
  - unfold render. apply submit_rejected_is_noop_page. by left.
  - intros s. unfold render, change. simpl.
    apply submit_rejected_is_noop_page. by left.
Qed.

Lemma resubmission_after_render_ignored_witness :
  submit (render (submit asking_page)) = render (submit asking_page) ∧
  ∀ s, submit (render (change s (submit asking_page))) =
       render (change s (submit asking_page)).
Proof.
  apply (resubmission_after_render_ignored asking_page).
  vm_compute. discriminate.
Defined.

(** X5. Once a request has settled, in the success branch or in a failure
    branch, the next question is accepted: from the state the continuation
    leaves, any input with text in it is submitted, appends its two messages
    after the finalized one and sends its own request. *)
Theorem next_question_accepted_after_settling (o : settled) (st : state) (s : jsstring) :
  trim s ≠ [] →
  handleSubmit (setInput s (handleSubmit_settled o st)) =
    ({| messages := messages (handleSubmit_settled o st)
                      ++ [user_message (trim s); loading_message];
        input := [];
        isLoading := true |},
     Some (chat_request (trim s))).
Proof.
  intros Hs.
  by rewrite (handleSubmit_accepted (setInput s (handleSubmit_settled o st))).
Qed.

Lemma next_question_accepted_after_settling_witness :
  handleSubmit (setInput duty_question (handleSubmit_settled Rejected awaiting)) =
    ({| messages := messages (handleSubmit_settled Rejected awaiting)
                      ++ [user_message (trim duty_question); loading_message];
        input := [];
        isLoading := true |},
     Some (chat_request (trim duty_question))).
Proof.
  apply (next_question_accepted_after_settling Rejected awaiting duty_question).
  vm_compute. discriminate.
Defined.

(** ** Which branch a settled request takes *)

Lemma readable_transformedSources data :
  readable data ↔ ∃ sources, transformedSources data = Normal sources.
Proof.
  split.
  - intros [Hdata [Hfalsy|(items & Hitems & Hall)]].
    + exists []. by apply transformedSources_falsy.
    + eexists. by apply transformedSources_array.
  - intros [sources H]. apply transformedSources_Normal in H as [Hdata H].
    split; [done|]. destruct H as [[Hfalsy _]|(items & Hitems & Hall & _)].
    + by left.
    + right. by exists items.
Qed.

Lemma answerable_try_block o data :
  answerable o data ↔ ∃ sources, try_block o = Normal (data, sources).
Proof.
  split.
  - intros (r & -> & Hok & Hjson & Hread).
    apply readable_transformedSources in Hread as [sources Hsrc].
    exists sources. by apply try_block_success.
  - intros [sources H]. apply try_block_Normal in H as (r & -> & Hok & Hjson & Hsrc).
    exists r. split; [done|]. split; [done|]. split; [done|].
    apply readable_transformedSources. eauto.
Qed.

(** X6. The continuation takes the success branch exactly when the response
    has a status from 200 to 299, its body is JSON text for a value that is
    neither [null] nor [undefined], and the [sources] property of that value
    is falsy or an array without a [null] element. In every other case, a
    rejected request, another status, a body that does not parse, a body
    [null], a [sources] that is a string, a number or an object, an array
    with a [null] in it, the last message becomes the connectivity-error
    message. *)
Theorem settled_branch (o : settled) (st : state) :
  (∃ data sources,
     answerable o data ∧
     last (messages (handleSubmit_settled o st)) = Some (answer_message data sources)) ∨
  ((∀ data, ¬ answerable o data) ∧
   last (messages (handleSubmit_settled o st)) = Some error_message).
Proof.
  destruct (try_block o) as [[data sources]|e] eqn:Htry.
  - left. exists data, sources. split.
    + apply answerable_try_block. eauto.
    + rewrite (handleSubmit_settled_success o data sources st Htry). simpl.
      by rewrite last_snoc.
  - right. split.
    + intros data Hans. apply answerable_try_block in Hans as [sources Hs].
      congruence.
    + rewrite (handleSubmit_settled_failure o e st Htry). simpl.
      by rewrite last_snoc.
Qed.

(** X7. A response with a success status whose body cannot be read as a
    reply is reported like a connection failure: when the body is [null],
    when [sources] is truthy and not an array, or when one citation item is
    [null], the continuation appends the connectivity-error message, without
    [sources], and not an answer. *)
Theorem unreadable_reply_is_an_error (st : state) (r : Response) (data : value) :
  ok r = true →
  json r = Some data →
  (nullish data = true ∨
   (ToBoolean (member data (lit "sources")) = true ∧
    ∀ items, member data (lit "sources") ≠ VArray items) ∨
   (∃ items, member data (lit "sources") = VArray items ∧
             Exists (λ item, nullish item = true) items)) →
  messages (handleSubmit_settled (Fulfilled r) st) =
    slice_0_m1 (messages st) ++ [error_message].
Proof.
  intros Hok Hjson Hbad.
  destruct (try_block (Fulfilled r)) as [[data' sources]|e] eqn:Htry.
  - apply try_block_Normal in Htry as (r' & [= <-] & _ & Hjson' & Hsrc).
    rewrite Hjson in Hjson'. injection Hjson' as <-.
    apply transformedSources_Normal in Hsrc as [Hdata Hsrc]. exfalso.
    destruct Hbad as [Hnull|[[Htruthy Hnot]|(items & Hitems & Hex)]].
    + congruence.
    + destruct Hsrc as [[Hfalsy _]|(items & Hitems & _)]; [congruence|].
      by apply (Hnot items).
    + destruct Hsrc as [[Hfalsy _]|(items' & Hitems' & Hall & _)].
      * by rewrite Hitems in Hfalsy.
      * rewrite Hitems in Hitems'. injection Hitems' as <-.
        apply Exists_exists in Hex as (item & Hin & Hitem).
        eapply Forall_forall in Hall; [|exact Hin]. congruence.
  - by rewrite (handleSubmit_settled_failure _ e st Htry).
Qed.

Lemma unreadable_reply_is_an_error_witness :
  messages (handleSubmit_settled
              (Fulfilled (mkResponse 200 (Some (VObject [(lit "sources", VArray [VNull])]))))
              awaiting) =
    slice_0_m1 (messages awaiting) ++ [error_message].
Proof.
  apply (unreadable_reply_is_an_error awaiting
           (mkResponse 200 (Some (VObject [(lit "sources", VArray [VNull])])))
           (VObject [(lit "sources", VArray [VNull])])).
  - reflexivity.
  - reflexivity.
  - right. right. exists [VNull]. split; [reflexivity|].
    apply Exists_cons_hd. reflexivity.
Defined.

(** ** The shape of reachable conversations *)

Lemma conversation_inv_initial : conversation_inv initial_page.
Proof. exists []. split; [constructor|]. by simpl. Qed.

Lemma conversation_inv_step p p' :
  conversation_inv p → fresh_step p p' → conversation_inv p'.
Proof.
  intros (l & Hl & Hinv) Hstep.
  destruct Hstep as [p s|p|p Hfresh|p before request after o Hout].
  - by exists l.
  - by exists l.
  - unfold submit.
    destruct (handleSubmit_in_cases (rendered p)) as [Hrej|[Hin Hfl]].
    + rewrite (handleSubmit_in_rejected _ (ui p) Hrej). simpl.
      exists l. split; [done|]. simpl. by rewrite app_nil_r.
    + rewrite (handleSubmit_in_accepted _ (ui p) Hin Hfl).
      rewrite Hfresh in Hfl.
      rewrite Hfl in Hinv. destruct Hinv as [Hnone Hmsgs].
      exists l. split; [done|]. simpl. exists (input (rendered p)).
      split; [done|]. by rewrite Hnone, Hmsgs.
  - destruct (handleSubmit_settled_reply o (ui p)) as (m & Hm & ->).
    destruct (isLoading (ui p)).
    + destruct Hinv as (text & Htext & Hone & Hmsgs).
      rewrite Hout in Hone.
      destruct before as [|b before]; simpl in Hone;
        [|injection Hone as _ Hone; by destruct before].
      injection Hone as _ ->.
      exists (l ++ [user_message (trim text); m]).
      split; [by constructor|]. simpl. split; [done|].
      rewrite Hmsgs.
      replace (welcome_message :: l ++ [user_message (trim text); loading_message])
        with ((welcome_message :: l ++ [user_message (trim text)]) ++ [loading_message])
        by (simpl; by rewrite <- app_assoc).
      rewrite slice_0_m1_snoc. simpl. by rewrite <- app_assoc.
    + destruct Hinv as [Hnone _]. rewrite Hout in Hnone. by destruct before.
Qed.

Lemma reachable_fresh_conversation_inv p : reachable_fresh p → conversation_inv p.
Proof.
  unfold reachable_fresh. revert p. apply rtc_ind_r.
  - apply conversation_inv_initial.
  - intros p p' _ Hstep IH. by eapply conversation_inv_step.
Qed.

Lemma reply_assistant m : reply m → Message.role m = assistant.
Proof. by destruct 1. Qed.

Lemma closing_assistant r : closing r → Message.role r = assistant.
Proof. destruct 1 as [r Hr|]; [by apply reply_assistant|done]. Qed.

(** In a run of turns the user speaks at the even positions. *)
Lemma turns_roles l :
  turns l →
  Nat.even (length l) = true ∧
  ∀ i m, l !! i = Some m →
         Message.role m = if Nat.even i then user else assistant.
Proof.
  induction 1 as [|l text r _ [IHlen IH] Htext Hr]; [done|].
  split.
  - rewrite length_app. simpl.
    replace (length l + 2)%nat with (S (S (length l))) by lia. done.
  - intros i m Hi.
    destruct (decide (i < length l)%nat) as [Hlt|Hge].
    + rewrite lookup_app_l in Hi by done. by apply IH.
    + rewrite lookup_app_r in Hi by lia.
      replace i with (length l + (i - length l))%nat by lia.
      rewrite Nat.even_add, IHlen.
      destruct (i - length l)%nat as [|[|k]]; simpl in Hi; simplify_eq; simpl.
      * done.
      * by apply closing_assistant.
Qed.

(** X8. In every reachable page the conversation opens with the welcome
    message and then alternates: the messages at the odd positions are the
    user's, those at the even positions the assistant's, and the length is
    odd, so that every user message is followed by exactly one assistant
    message, its answer, its error message or the placeholder. *)
Theorem conversation_alternates (p : page) :
  reachable p →
  messages (ui p) !! 0%nat = Some welcome_message ∧
  Nat.odd (length (messages (ui p))) = true ∧
  ∀ i m, messages (ui p) !! i = Some m →
         Message.role m = if Nat.even i then assistant else user.
Proof.
  intros Hp. apply reachable_turns_inv in Hp as (l & Hl & -> & _).
  destruct (turns_roles l Hl) as [Hlen Hroles].
  split; [done|]. split.
  - simpl length. by rewrite Nat.odd_succ.
  - intros [|i] m Hi; simpl in Hi.
    + by injection Hi as <-.
    + rewrite Nat.even_succ, <- Nat.negb_even.
      rewrite (Hroles i m Hi). by destruct (Nat.even i).
Qed.

Lemma conversation_alternates_witness :
  messages (ui awaiting_page) !! 0%nat = Some welcome_message ∧
  Nat.odd (length (messages (ui awaiting_page))) = true ∧
  ∀ i m, messages (ui awaiting_page) !! i = Some m →
         Message.role m = if Nat.even i then assistant else user.
Proof.
  apply (conversation_alternates awaiting_page).
  unfold reachable. reach_awaiting.
Defined.

(** X9. In a run in which every form event is handled by a render that has
    seen the current in-flight flag, at most one request is outstanding, and
    one is outstanding exactly while the flag is raised. It is a POST of the
    JSON object whose [query] is the content of the last user message, which
    is not empty and is followed by the placeholder only. *)
Theorem outstanding_request_matches_last_question (p : page) :
  reachable_fresh p →
  (length (outstanding p) ≤ 1)%nat ∧
  (isLoading (ui p) = true ↔ outstanding p ≠ []) ∧
  ∀ request, request ∈ outstanding p →
    ∃ q prior, q ≠ [] ∧
               request = {| url := lit "http://localhost:8000/chat";
                            method := lit "POST";
                            content_type := lit "application/json";
                            body := VObject [(lit "query", VString q)] |} ∧
               messages (ui p) = prior ++ [user_message q; loading_message].
Proof.
  intros Hp. apply reachable_fresh_conversation_inv in Hp as (l & Hl & Hinv).
  destruct (isLoading (ui p)).
  - destruct Hinv as (text & Htext & -> & ->). split; [simpl; lia|].
    split; [done|]. intros request Hreq.
    apply list_elem_of_singleton in Hreq as ->.
    by exists (trim text), (welcome_message :: l).
  - destruct Hinv as [-> _]. split; [simpl; lia|]. split; [done|].
    intros request Hreq. by apply elem_of_nil in Hreq.
Qed.

Lemma outstanding_request_matches_last_question_witness :
  (length (outstanding awaiting_page) ≤ 1)%nat ∧
  (isLoading (ui awaiting_page) = true ↔ outstanding awaiting_page ≠ []) ∧
  ∀ request, request ∈ outstanding awaiting_page →
    ∃ q prior, q ≠ [] ∧
               request = {| url := lit "http://localhost:8000/chat";
                            method := lit "POST";
                            content_type := lit "application/json";
                            body := VObject [(lit "query", VString q)] |} ∧
               messages (ui awaiting_page) = prior ++ [user_message q; loading_message].
Proof.
  apply (outstanding_request_matches_last_question awaiting_page).
  unfold reachable_fresh. reach_awaiting_fresh.
Defined.

Lemma finalized_truthy m : finalized m → ToBoolean (Message.content m) = true.
Proof.
  destruct 1 as [|text Htext|data sources _|]; simpl.
  - done.
  - by apply ToBoolean_string.
  - unfold js_or.
    by destruct (ToBoolean (member data (lit "answer"))) eqn:Ha.
  - done.
Qed.

(** X10. In every reachable page the only message with an empty content is
    the placeholder: the content of a message is falsy exactly when the
    message is loading. An answer that is missing or empty has been replaced
    by the fallback text, and user messages are never blank. *)
Theorem only_placeholder_is_empty (p : page) (m : Message.t) :
  reachable p →
  m ∈ messages (ui p) →
  (ToBoolean (Message.content m) = false ↔ is_loading m = true) ∧
  (is_loading m = true → Message.content m = VString []).
Proof.
  intros Hp Hm.
  destruct (reachable_message_cases p m Hp Hm) as [Hfin| ->]; [|done].
  rewrite (finalized_truthy m Hfin), (finalized_not_loading m Hfin). done.
Qed.

Lemma only_placeholder_is_empty_witness :
  (ToBoolean (Message.content loading_message) = false ↔
     is_loading loading_message = true) ∧
  (is_loading loading_message = true → Message.content loading_message = VString []).
Proof.
  apply (only_placeholder_is_empty awaiting_page loading_message).
  - unfold reachable. reach_awaiting.
  - apply list_elem_of_In. vm_compute. right. right. left. reflexivity.
Defined.

Lemma fresh_step_keeps_finalized p p' i m :
  page_inv p → fresh_step p p' →
  messages (ui p) !! i = Some m → is_loading m = false →
  messages (ui p') !! i = Some m.
Proof.
  intros Hinv Hstep Hi Hm.
  destruct Hstep as [p s|p|p Hfresh|p before request after o Hout].
  - done.
  - done.
  - unfold submit.
    destruct (handleSubmit_in_cases (rendered p)) as [Hrej|[Hin Hfl]].
    + by rewrite (handleSubmit_in_rejected _ (ui p) Hrej).
    + rewrite (handleSubmit_in_accepted _ (ui p) Hin Hfl). simpl.
      apply lookup_app_l_Some. done.
  - destruct (handleSubmit_settled_cases o (ui p)) as (m' & _ & ->). simpl.
    unfold page_inv in Hinv. destruct (isLoading (ui p)).
    + destruct Hinv as [_ (l & Hl & _)]. rewrite Hl in *.
      rewrite slice_0_m1_snoc. apply lookup_app_l_Some.
      apply lookup_app_Some in Hi as [Hi|[_ Hi]]; [done|].
      destruct (i - length l)%nat; simpl in Hi; [|done].
      injection Hi as <-. discriminate.
    + destruct Hinv as [Hnone _]. rewrite Hout in Hnone. by destruct before.
Qed.

(** X11. In a run in which every form event is handled by a render that has
    seen the current in-flight flag, the conversation is append-only apart
    from the placeholder: a message that is not the placeholder stays at its
    position, with all its fields, in every later page of the run, whatever
    is typed, submitted or answered, in the success branch as in the failure
    branches. *)
Theorem finalized_messages_are_kept (p p' : page) (i : nat) (m : Message.t) :
  reachable_fresh p →
  rtc fresh_step p p' →
  messages (ui p) !! i = Some m →
  is_loading m = false →
  messages (ui p') !! i = Some m.
Proof.
  intros Hp Hsteps. revert Hp.
  induction Hsteps as [p|p p1 p' Hstep _ IH]; intros Hp Hi Hm; [done|].
  apply IH.
  - by eapply reachable_fresh_step.
  - eapply fresh_step_keeps_finalized; eauto. by apply reachable_fresh_page_inv.
  - done.
Qed.

Lemma finalized_messages_are_kept_witness :
  messages (ui answered_bare_page) !! 1%nat = Some (user_message duty_question).
Proof.
  apply (finalized_messages_are_kept awaiting_page answered_bare_page 1
           (user_message duty_question)).
  - unfold reachable_fresh. reach_awaiting_fresh.
  - apply rtc_once.
    apply (fresh_settle awaiting_page [] (chat_request duty_question) []
             (Fulfilled (mkResponse 200 (Some bare_reply)))).
    reflexivity.
  - reflexivity.
  - reflexivity.
Defined.

(** ** What the page shows *)

Lemma ChatMessage_None m expandedSources :
  ChatMessage m expandedSources = None ↔ is_loading m = true.
Proof. unfold ChatMessage. by destruct (is_loading m). Qed.

(** X12. In a run in which every form event is handled by a render that has
    seen the current in-flight flag, [ChatMessage] returns [null] for exactly
    one message while the typing indicator is rendered, the last one, and for
    none while it is not. For every other message it returns an element whose
    paragraph has [message.content] as its child. *)
Theorem hidden_message_is_last_while_typing (p : page) (expanded : nat → bool) (i : nat) :
  reachable_fresh p →
  (bubbles (NCSChatbot (ui p) expanded) !! i = Some None ↔
     typing_indicator (NCSChatbot (ui p) expanded) = true ∧
     S i = length (messages (ui p))) ∧
  (∀ b, bubbles (NCSChatbot (ui p) expanded) !! i = Some (Some b) →
        ∃ m, messages (ui p) !! i = Some m ∧ paragraph b = Message.content m).
Proof.
  intros Hp. apply reachable_fresh_page_inv in Hp. unfold page_inv in Hp.
  simpl. rewrite list_lookup_imap. split.
  - destruct (isLoading (ui p)).
    + destruct Hp as [_ (l & -> & Hall)]. rewrite length_app. simpl. split.
      * intros H. split; [done|].
        destruct ((l ++ [loading_message]) !! i) as [m|] eqn:Hi; [|done].
        simpl in H. injection H as H. apply ChatMessage_None in H.
        apply lookup_app_Some in Hi as [Hi|[Hge Hi]].
        -- eapply Forall_lookup in Hall; [|exact Hi].
           apply finalized_not_loading in Hall. congruence.
        -- apply lookup_lt_Some in Hi. simpl in Hi. lia.
      * intros [_ Hlen].
        replace i with (length l + 0)%nat by lia.
        by rewrite lookup_app_r, Nat.add_comm, Nat.add_sub by lia.
    + destruct Hp as [_ Hall]. split; [|by intros [? _]].
      intros H. destruct (messages (ui p) !! i) as [m|] eqn:Hi; [|done].
      simpl in H. injection H as H. apply ChatMessage_None in H.
      eapply Forall_lookup in Hall; [|exact Hi].
      apply finalized_not_loading in Hall. congruence.
  - intros b H. destruct (messages (ui p) !! i) as [m|]; [|done].
    exists m. split; [done|]. simpl in H. injection H as H.
    unfold ChatMessage in H. destruct (is_loading m); [done|].
    by injection H as <-.
Qed.

Lemma hidden_message_is_last_while_typing_witness :
  (bubbles (NCSChatbot (ui awaiting_page) (λ _, false)) !! 2%nat = Some None ↔
     typing_indicator (NCSChatbot (ui awaiting_page) (λ _, false)) = true ∧
     3%nat = length (messages (ui awaiting_page))) ∧
  (∀ b, bubbles (NCSChatbot (ui awaiting_page) (λ _, false)) !! 2%nat = Some (Some b) →
        ∃ m, messages (ui awaiting_page) !! 2%nat = Some m ∧
             paragraph b = Message.content m).
Proof.
  apply (hidden_message_is_last_while_typing awaiting_page (λ _, false) 2).
  unfold reachable_fresh. reach_awaiting_fresh.
Defined.

Lemma sources_block_fmap items expandedSources :
  sources_block (source_of <$> items) expandedSources =
    {| badge_count := length items;
       badge_label :=
         if (length items =? 1)%nat then lit "Source Cited" else lit "Sources Cited";
       listed :=
         if expandedSources
         then Some (imap (λ idx item,
                            mkCitation (idx + 1) (member item (lit "source_text_preview")))
                         items)
         else None |}.
Proof. unfold sources_block. by rewrite length_fmap, imap_fmap. Qed.

(** X13. From the response to the screen: when a success response carries N
    citation items, the bubble of the finalized message has no citation block
    for N = 0; for N > 0 its badge counts N, worded in the singular for
    N = 1 only, and, once expanded, it lists N citations numbered 1 to N in
    the order received, each quoting the [source_text_preview] of its item. *)
Theorem citations_are_listed_in_order (st : state) (r : Response) (data : value)
    (items : list value) (expandedSources : bool) :
  ok r = true →
  json r = Some data →
  member data (lit "sources") = VArray items →
  Forall (λ item, nullish item = false) items →
  ∃ m b,
    last (messages (handleSubmit_settled (Fulfilled r) st)) = Some m ∧
    ChatMessage m expandedSources = Some b ∧
    cited b =
      match items with
      | [] => None
      | _ :: _ =>
          Some {| badge_count := length items;
                  badge_label :=
                    if (length items =? 1)%nat
                    then lit "Source Cited" else lit "Sources Cited";
                  listed :=
                    if expandedSources
                    then Some (imap (λ idx item,
                                       mkCitation (idx + 1)
                                         (member item (lit "source_text_preview")))
                                    items)
                    else None |}
      end.
Proof.
  intros Hok Hjson Hsrc Hitems.
  pose proof (transformedSources_array data items Hsrc Hitems) as Htr.
  exists (answer_message data (source_of <$> items)).
  rewrite (handleSubmit_settled_success _ data (source_of <$> items))
    by by apply try_block_success.
  simpl. rewrite last_snoc. eexists. split; [done|]. split; [reflexivity|].
  simpl. unfold shown_sources. simpl.
  destruct items as [|item items]; [done|].
  change (source_of <$> item :: items) with (source_of item :: (source_of <$> items)).
  cbv beta iota.
  change (source_of item :: (source_of <$> items)) with (source_of <$> item :: items).
  by rewrite sources_block_fmap.
Qed.

Lemma citations_are_listed_in_order_witness :
  ∃ m b,
    last (messages (handleSubmit_settled (Fulfilled (mkResponse 200 (Some duty_reply)))
                      awaiting)) = Some m ∧
    ChatMessage m true = Some b ∧
    cited b =
      Some {| badge_count := 1;
              badge_label := lit "Source Cited";
              listed :=
                Some [mkCitation 1 (VString (lit "Tariff Schedule Part II, Item 12"))] |}.
Proof.
  apply (citations_are_listed_in_order awaiting (mkResponse 200 (Some duty_reply))
           duty_reply
           [VObject
              [(lit "source_text_preview", VString (lit "Tariff Schedule Part II, Item 12"));
               (lit "metadata", VObject [(lit "section", VString (lit "12"))])]]
           true).
  - reflexivity.
  - reflexivity.
  - reflexivity.
  - repeat constructor.
Defined.

(** X14. How the bubbles of a reachable page are told apart: a bubble is on
    the right and in the user's colours exactly for a user message, it is in
    the error colours exactly for the connectivity-error message, and it has
    a citation block exactly for an answer that carries at least one source;
    no user, error or welcome bubble ever shows a badge. *)
Theorem bubble_styles (p : page) (m : Message.t) (expandedSources : bool) (b : bubble) :
  reachable p →
  m ∈ messages (ui p) →
  ChatMessage m expandedSources = Some b →
  (on_right b = true ↔ Message.role m = user) ∧
  (style b = user_style ↔ Message.role m = user) ∧
  (style b = error_style ↔ m = error_message) ∧
  (is_Some (cited b) ↔
     ∃ data sources, transformedSources data = Normal sources ∧
                     m = answer_message data sources ∧ sources ≠ []).
Proof.
  intros Hp Hm Hb.
  destruct (reachable_message_cases p m Hp Hm) as [Hfin| ->]; [|discriminate].
  destruct Hfin as [|text Htext|data sources Hsrc|];
    unfold ChatMessage in Hb; simpl in Hb; injection Hb as <-; simpl.
  - split; [done|]. split; [done|]. split; [done|].
    split; [by intros [? [=]] | by intros (? & ? & _ & [=] & _)].
  - split; [done|]. split; [done|]. split; [done|].
    split; [by intros [? [=]] | by intros (? & ? & _ & [=] & _)].
  - split; [done|]. split; [done|]. split; [done|].
    unfold shown_sources. simpl. split.
    + intros Hsome. exists data, sources. split; [done|]. split; [done|].
      intros ->. by destruct Hsome.
    + intros (data' & sources' & _ & [= _ ->] & Hne).
      destruct sources'; [done|]. eauto.
  - split; [done|]. split; [done|]. split; [done|].
    split; [by intros [? [=]] | by intros (? & ? & _ & [=] & _)].
Qed.

Lemma bubble_styles_witness :
  (on_right (mkBubble true user_style (VString duty_question) None) = true ↔
     Message.role (user_message duty_question) = user) ∧
  (style (mkBubble true user_style (VString duty_question) None) = user_style ↔
     Message.role (user_message duty_question) = user) ∧
  (style (mkBubble true user_style (VString duty_question) None) = error_style ↔
     user_message duty_question = error_message) ∧
  (is_Some (cited (mkBubble true user_style (VString duty_question) None)) ↔
     ∃ data sources, transformedSources data = Normal sources ∧
                     user_message duty_question = answer_message data sources ∧
                     sources ≠ []).
Proof.
  apply (bubble_styles awaiting_page (user_message duty_question) false
           (mkBubble true user_style (VString duty_question) None)).
  - unfold reachable. reach_awaiting.
  - apply list_elem_of_In. vm_compute. right. left. reflexivity.
  - reflexivity.
Defined.

(** X15. In a run in which every form event is handled by a render that has
    seen the current in-flight flag, at most one message of the conversation
    has [isLoading = true], and while a request is outstanding that message
    is the last one; every step of such a run keeps this. *)
Theorem fresh_runs_keep_one_placeholder (p : page) :
  reachable_fresh p →
  placeholder_last p ∧ ∀ p', fresh_step p p' → placeholder_last p'.
Proof.
  intros Hp. split.
  - by apply page_inv_placeholder_last, reachable_fresh_page_inv.
  - intros p' Hstep. apply page_inv_placeholder_last, reachable_fresh_page_inv.
    by eapply reachable_fresh_step.
Qed.

Lemma fresh_runs_keep_one_placeholder_witness :
  placeholder_last awaiting_page ∧
  ∀ p', fresh_step awaiting_page p' → placeholder_last p'.
Proof.
  apply (fresh_runs_keep_one_placeholder awaiting_page).
  unfold reachable_fresh. reach_awaiting_fresh.
Defined.
